(** * zxio: vectorized transfers and the ops-table adaptor

    A shallow embedding of [sdk/lib/zxio/private.h]:

    - [zxio_vmo_do_vector], the bounded scatter/gather helper of the
      memory-region file, together with the generic loop [zxio_do_vector]
      it delegates to;
    - [HasIo::Adaptor<T>::From], the wrapper that turns a member function
      of a backend class into an entry of the C ops table.

    Machine integers ([size_t], [zx_off_t], [zx_status_t]) are integers of
    [Z]; unsigned 64-bit arithmetic is written with an explicit [wrap].
    Side effects are rendered by explicit state passing. *)

From Stdlib Require Import ZArith List Lia Bool.
Import ListNotations.
Open Scope Z_scope.

(** ** Machine integers *)

Definition size_modulus : Z := 2 ^ 64.

(** Reduction of an integer to the range of [size_t]. *)
Definition wrap (z : Z) : Z := z mod size_modulus.

(** The values a [size_t] can hold. *)
Definition is_size_t (z : Z) : Prop := 0 <= z < size_modulus.

(** ** Status codes *)

Definition zx_status_t : Type := Z.

(** Modelled from the spec: the status constants are declared in
    [zircon/errors.h], which is not among the sources at hand.  The spec
    only speaks of "success" and of an "invalid-argument condition"; the
    numbers below are the customary ones, and every result of this file
    uses nothing but the fact that the two differ. *)
Definition ZX_OK : zx_status_t := 0.
Definition ZX_ERR_INVALID_ARGS : zx_status_t := -10.

(** ** Vector descriptors *)

(** One entry of a scatter/gather list: the address of a buffer and its
    size in bytes. *)
Record zx_iovec_t : Type := mk_iovec { buffer : Z; capacity : Z }.

Definition iovec_ok (e : zx_iovec_t) : Prop := is_size_t (capacity e).

(** The entries for which a transfer is attempted. *)
Definition nonempty (e : zx_iovec_t) : bool := negb (capacity e =? 0).

(** A single-buffer transfer closure, [fn(buffer, capacity, &actual)]:
    it returns a status and, when it stores through its third argument,
    the number stored. *)
Definition transfer (S : Type) : Type :=
  Z -> Z -> S -> (zx_status_t * option Z) * S.

Definition bytes_moved (actual : option Z) : Z :=
  match actual with Some n => n | None => 0 end.

(** ** The generic loop *)

Module Vector.

(** Modelled from the spec: [zxio_do_vector] is defined in
    [lib/zxio/cpp/vector.h], which is not among the sources at hand; only
    its call from [zxio_vmo_do_vector] is.  The loop follows section 4.2:
    walk the descriptor in order; skip an entry of length zero without
    calling the closure; otherwise call the closure with the entry's buffer
    and length; on an error stop and hand the error back together with the
    total accumulated so far; on success add the bytes moved to the total,
    and stop with success if fewer bytes were moved than requested. *)
Fixpoint do_vector_loop {S : Type} (vector : list zx_iovec_t) (total : Z)
    (fn : transfer S) (s : S) : (zx_status_t * Z) * S :=
  match vector with
  | [] => ((ZX_OK, total), s)
  | e :: rest =>
      if capacity e =? 0 then do_vector_loop rest total fn s
      else
        let '((status, actual), s') := fn (buffer e) (capacity e) s in
        if negb (status =? ZX_OK) then ((status, total), s')
        else
          let total' := total + bytes_moved actual in
          if bytes_moved actual <? capacity e then ((ZX_OK, total'), s')
          else do_vector_loop rest total' fn s'
  end.

(** Modelled from the spec: the entry point of section 4.2; the total
    starts at zero. *)
Definition zxio_do_vector {S : Type} (vector : list zx_iovec_t)
    (fn : transfer S) (s : S) : (zx_status_t * Z) * S :=
  do_vector_loop vector 0 fn s.

(** *** Observing the closure

    To speak about which calls of the closure a run makes, the closure is
    wrapped so that it appends a record of each call to a log carried next
    to the state.  The loop itself is left as it is. *)

Record invocation (S : Type) : Type := mk_invocation {
  inv_buffer : Z;
  inv_capacity : Z;
  inv_before : S;
  inv_status : zx_status_t;
  inv_actual : option Z;
  inv_after : S
}.
Arguments mk_invocation {S}.
Arguments inv_buffer {S}.
Arguments inv_capacity {S}.
Arguments inv_before {S}.
Arguments inv_status {S}.
Arguments inv_actual {S}.
Arguments inv_after {S}.

Definition logged {S : Type} (fn : transfer S)
  : transfer (S * list (invocation S)) :=
  fun buf cap sl =>
    let '((status, actual), s') := fn buf cap (fst sl) in
    ((status, actual),
     (s', snd sl ++ [mk_invocation buf cap (fst sl) status actual s'])).

(** The calls of the closure made by a run, in order. *)
Definition invocations {S : Type} (vector : list zx_iovec_t)
    (fn : transfer S) (s : S) : list (invocation S) :=
  snd (snd (zxio_do_vector vector (logged fn) (s, []))).

Definition requested {S : Type} (i : invocation S) : zx_iovec_t :=
  mk_iovec (inv_buffer i) (inv_capacity i).

Definition completed {S : Type} (i : invocation S) : bool :=
  inv_status i =? ZX_OK.

Definition moved {S : Type} (i : invocation S) : Z :=
  bytes_moved (inv_actual i).

Definition short {S : Type} (i : invocation S) : bool :=
  moved i <? inv_capacity i.

Definition sum_moved {S : Type} (l : list (invocation S)) : Z :=
  fold_right Z.add 0 (map moved l).

(** Each record is faithful: it holds what the closure answered in the
    state it was called in. *)
Definition faithful {S : Type} (fn : transfer S) (i : invocation S) : Prop :=
  fn (inv_buffer i) (inv_capacity i) (inv_before i)
  = ((inv_status i, inv_actual i), inv_after i).

(** The records follow one another: each call starts in the state the
    previous one ended in. *)
Fixpoint chained {S : Type} (s : S) (l : list (invocation S)) (s' : S)
  : Prop :=
  match l with
  | [] => s = s'
  | i :: l' => inv_before i = s /\ chained (inv_after i) l' s'
  end.

(** The same list of calls, computed directly by recursion over the
    descriptor; [invocations_trace] below shows that the two agree. *)
Fixpoint trace {S : Type} (vector : list zx_iovec_t) (fn : transfer S)
    (s : S) : list (invocation S) :=
  match vector with
  | [] => []
  | e :: rest =>
      if capacity e =? 0 then trace rest fn s
      else
        let '((status, actual), s') := fn (buffer e) (capacity e) s in
        let i := mk_invocation (buffer e) (capacity e) s status actual s' in
        if negb (status =? ZX_OK) then [i]
        else if bytes_moved actual <? capacity e then [i]
        else i :: trace rest fn s'
  end.

(** The possible outlines of a run: the calls made, the entries left
    untouched, and the status handed back. *)
Inductive run_shape {S : Type}
  : list (invocation S) -> list zx_iovec_t -> zx_status_t -> Prop :=
| shape_done : run_shape [] [] ZX_OK
| shape_error i rest :
    completed i = false -> run_shape [i] rest (inv_status i)
| shape_short i rest :
    completed i = true -> short i = true -> run_shape [i] rest ZX_OK
| shape_full i l rest st :
    completed i = true -> short i = false ->
    run_shape l rest st -> run_shape (i :: l) rest st.

End Vector.

(** ** The bounded adapter of the memory-region file *)

Module Vmo.
Import Vector.

(** What the adapter works on: the seek offset behind [size_t* offset],
    and everything the backend primitive can read or write (the memory
    object and the caller's buffers).  The two are kept apart: the
    primitive is handed the offset by value and does not reach the cell
    that holds it. *)
Record file_state (World : Type) : Type := mk_state {
  st_offset : Z;
  st_world : World
}.
Arguments mk_state {World}.
Arguments st_offset {World}.
Arguments st_world {World}.

(** The backend single-buffer primitive, [fn(buffer, offset, capacity)]. *)
Definition primitive (World : Type) : Type :=
  Z -> Z -> Z -> World -> zx_status_t * World.

Section Bounded.
Context {World : Type}.
Variable fn : primitive World.
Variables start length : Z.

(** The lambda handed to [zxio_do_vector]. *)
Definition vmo_closure : transfer (file_state World) :=
  fun buffer capacity s =>
    let capacity := Z.min capacity (wrap (length - st_offset s)) in
    let '(status, w) :=
      fn buffer (wrap (start + st_offset s)) capacity (st_world s) in
    if negb (status =? ZX_OK) then
      ((status, None), mk_state (st_offset s) w)
    else
      ((ZX_OK, Some capacity),
       mk_state (wrap (st_offset s + capacity)) w).

(** [zxio_vmo_do_vector(start, length, offset, vector, vector_count,
    out_actual, fn)].  The second component of the answer is the number
    stored through [out_actual], if any. *)
Definition zxio_vmo_do_vector (vector : list zx_iovec_t)
    (s : file_state World) : (zx_status_t * option Z) * file_state World :=
  if st_offset s >? length then ((ZX_ERR_INVALID_ARGS, None), s)
  else
    let '((status, total), s') := zxio_do_vector vector vmo_closure s in
    ((status, Some total), s').
End Bounded.

(** *** Observing the primitive *)

Record backend_call : Type := mk_call {
  call_buffer : Z;
  call_offset : Z;
  call_capacity : Z
}.

(** A primitive that also notes down each of its calls. *)
Definition logged_fn {World : Type} (fn : primitive World)
  : primitive (World * list backend_call) :=
  fun buf off cap wl =>
    let '(status, w) := fn buf off cap (fst wl) in
    (status, (w, snd wl ++ [mk_call buf off cap])).

Definition backend_calls {World : Type}
    (s : file_state (World * list backend_call)) : list backend_call :=
  snd (st_world s).

(** The call of the primitive expected from a call of the lambda: same
    buffer, the running offset shifted by [start], and the requested
    capacity clipped to what is left of the resource. *)
Definition clipped_call {World : Type} (start length : Z)
    (i : invocation (file_state World)) : backend_call :=
  mk_call (inv_buffer i)
          (wrap (start + st_offset (inv_before i)))
          (Z.min (inv_capacity i) (length - st_offset (inv_before i))).

(** The cursor invariant: the seek offset lies within the resource. *)
Definition in_bounds {World : Type} (length : Z) (s : file_state World)
  : Prop := 0 <= st_offset s <= length.

(** A sample primitive for concrete runs: it accepts transfers that start
    before [limit], counting the bytes it has moved, and refuses the
    others with an error status. *)
Definition sample_fn (limit : Z) : primitive Z :=
  fun _ off cap w =>
    if off <? limit then (ZX_OK, w + cap) else (-14, w).

End Vmo.

(** ** The ops-table adaptor *)

Module Dispatch.

(** A pointer is an address; the type it points to is only a label. *)
Record ptr (A : Type) : Type := mk_ptr { address : Z }.
Arguments mk_ptr {A}.
Arguments address {A}.

Definition reinterpret_cast {A : Type} (B : Type) (p : ptr A) : ptr B :=
  mk_ptr (address p).

Section Adaptor.
(** The header type [zxio_t], the backend class [T], the remaining
    arguments of the operation, and the memory the operation acts on. *)
Variables zxio_t T Rest Heap : Type.

(** A member function of [T] returning [zx_status_t]. *)
Definition member_fn : Type :=
  ptr T -> Rest -> Heap -> zx_status_t * Heap.

(** [std::mem_fn]: the callable that takes the object as its first
    argument. *)
Definition mem_fn (fn : member_fn) : ptr T -> Rest -> Heap -> zx_status_t * Heap :=
  fun instance args => fn instance args.

Definition FromImpl (memfn : ptr T -> Rest -> Heap -> zx_status_t * Heap)
    (io : ptr zxio_t) (args : Rest) : Heap -> zx_status_t * Heap :=
  let instance := reinterpret_cast T io in
  memfn instance args.

(** [From<fn>(args...)]: the pack starts with the header pointer. *)
Definition From (fn : member_fn) (args : ptr zxio_t * Rest)
  : Heap -> zx_status_t * Heap :=
  let memfn := mem_fn fn in
  FromImpl memfn (fst args) (snd args).

(** The contract of section 4.1, in its own words: take the header
    pointer, reinterpret it as a pointer to [T], and invoke the
    operation on it with the remaining arguments passed on unchanged. *)
Definition From_spec (Op : member_fn) (io : ptr zxio_t) (args : Rest)
  : Heap -> zx_status_t * Heap :=
  Op (reinterpret_cast T io) args.
End Adaptor.

End Dispatch.

(** ** Ranges touched by the bounded adapter *)

Module VmoRange.
Import Vector Vmo.

(** The number of bytes a descriptor asks for. *)
Definition total_requested (vector : list zx_iovec_t) : Z :=
  fold_right Z.add 0 (map capacity vector).

(** Calls of the primitive that form one run of bytes: the first starts
    at seek offset [o] (shifted by [start]), each stays within the
    resource, and each next one starts where the one before it stopped. *)
Fixpoint adjacent (start length o : Z) (calls : list backend_call) : Prop :=
  match calls with
  | [] => True
  | c :: rest =>
      call_offset c = wrap (start + o)
      /\ 0 <= call_capacity c <= length - o
      /\ adjacent start length (o + call_capacity c) rest
  end.

(** A primitive that accepts every transfer and counts the bytes. *)
Definition ok_fn : primitive Z :=
  fun _ _ cap w => (ZX_OK, w + cap).

End VmoRange.

(** ** Cache configuration tables of the Intel GPU driver

    [src/graphics/drivers/msd-intel-gen/src/cache_config.cc].  A
    [std::vector] is a list; an index is a [nat]; an access out of range
    has no defined result in the source and is [None] here. *)

Module CacheConfig.

(** The enumerators of [MemoryObjectControlState] that the file names. *)
Inductive Cacheability : Type := UNCACHED | PAGETABLE | WRITEBACK.
Inductive Cache : Type := LLC | LLC_ELLC.
Inductive LruManagement : Type := LRU_0 | LRU_3.

(** The enumerators of [LncfMemoryObjectControlState] that the file
    names. *)
Inductive LncfCacheability : Type := LNCF_UNCACHED | LNCF_WRITEBACK.

(** Reduction to the range of [uint32_t]. *)
Definition wrap32 (z : Z) : Z := z mod 2 ^ 32.

(** [v.resize(n)]: keep the first [n] items, fill up with zeros. *)
Definition resize (n : nat) (v : list Z) : list Z :=
  firstn n v ++ repeat 0 (n - length v).

(** [v[i] = x]. *)
Fixpoint assign (i : nat) (x : Z) (v : list Z) : option (list Z) :=
  match v, i with
  | [], _ => None
  | _ :: rest, O => Some (x :: rest)
  | y :: rest, S i' => option_map (cons y) (assign i' x rest)
  end.

(** A counted loop whose body updates the vector. *)
Fixpoint for_each (indices : list nat)
    (body : nat -> list Z -> option (list Z)) (v : list Z)
  : option (list Z) :=
  match indices with
  | [] => Some v
  | i :: rest =>
      match body i v with
      | Some v' => for_each rest body v'
      | None => None
      end
  end.

(** The loop that packs 16-bit entries two by two into 32-bit words
    (in [InitCacheConfig] and in [InitCacheConfigGen12]): each round
    reads the entries at [i] and [i + 1] and appends
    [(entry[i + 1] << 16) | entry[i]]; with an odd number of entries the
    last round reads past the end. *)
Fixpoint pack_lncf (lncf_mocs : list Z) : option (list Z) :=
  match lncf_mocs with
  | [] => Some []
  | [_] => None
  | lo :: hi :: rest =>
      option_map (cons (wrap32 (Z.lor (Z.shiftl hi 16) lo)))
        (pack_lncf rest)
  end.

(** The two 16-bit halves of a packed word, low half first. *)
Definition halves (w : Z) : list Z := [Z.land w 65535; Z.shiftr w 16].

(** One call of [register_io->Write32(value, offset)]. *)
Record reg_write : Type := mk_write { write_value : Z; write_offset : Z }.

Section Tables.
(** What the file takes from [cache_config.h] and [registers.h]: the
    number of entries, the two [format] functions and the two register
    offsets. *)
Variable kMemoryObjectControlStateEntries : nat.
Variable format : Cacheability -> Cache -> LruManagement -> Z.
Variable lncf_format : LncfCacheability -> Z.
Variables kGlobalOffsetGen12 kOffset : Z.

Definition GetMemoryObjectControlState (mocs : list Z) : option (list Z) :=
  let mocs := resize kMemoryObjectControlStateEntries mocs in
  match assign 0 (format UNCACHED LLC_ELLC LRU_0) mocs with
  | None => None
  | Some mocs =>
  match assign 1 (format PAGETABLE LLC_ELLC LRU_3) mocs with
  | None => None
  | Some mocs =>
  match assign 2 (format WRITEBACK LLC_ELLC LRU_3) mocs with
  | None => None
  | Some mocs =>
      for_each (seq 3 (kMemoryObjectControlStateEntries - 3))
        (fun index => assign index (format UNCACHED LLC_ELLC LRU_0)) mocs
  end end end.

Definition GetLncfMemoryObjectControlState (mocs : list Z)
  : option (list Z) :=
  let mocs := resize kMemoryObjectControlStateEntries mocs in
  match assign 0 (lncf_format LNCF_UNCACHED) mocs with
  | None => None
  | Some mocs =>
  match assign 1 (lncf_format LNCF_WRITEBACK) mocs with
  | None => None
  | Some mocs =>
  match assign 2 (lncf_format LNCF_WRITEBACK) mocs with
  | None => None
  | Some mocs =>
      for_each (seq 3 (kMemoryObjectControlStateEntries - 3))
        (fun index => assign index (lncf_format LNCF_UNCACHED)) mocs
  end end end.

Definition GetMemoryObjectControlStateGen12 (mocs : list Z)
  : option (list Z) :=
  let mocs := resize kMemoryObjectControlStateEntries mocs in
  let kUncached := format UNCACHED LLC LRU_0 in
  let kCached := format WRITEBACK LLC LRU_3 in
  for_each (seq 0 kMemoryObjectControlStateEntries)
    (fun i =>
       match i with
       | 2%nat | 48%nat | 60%nat => assign i kCached
       | _ => assign i kUncached
       end) mocs.

Definition GetLncfMemoryObjectControlStateGen12 (mocs : list Z)
  : option (list Z) :=
  let mocs := resize kMemoryObjectControlStateEntries mocs in
  for_each (seq 0 kMemoryObjectControlStateEntries)
    (fun i =>
       match i with
       | 2%nat | 48%nat => assign i (lncf_format LNCF_WRITEBACK)
       | _ => assign i (lncf_format LNCF_UNCACHED)
       end) mocs.

(** The register writes of a loop
    [for (i = 0; i < v.size(); i++) register_io->Write32(v[i], base + i * 4)]. *)
Definition write_all (base : Z) (v : list Z) : list reg_write :=
  map (fun iv => mk_write (snd iv) (wrap32 (base + Z.of_nat (fst iv) * 4)))
      (combine (seq 0 (length v)) v).

(** [InitCacheConfigGen12(register_io)]: the answer and the register
    writes made, after those already in [register_io]. *)
Definition InitCacheConfigGen12 (register_io : list reg_write)
  : option (bool * list reg_write) :=
  match GetMemoryObjectControlStateGen12 [] with
  | None => None
  | Some global_mocs =>
      let register_io := register_io ++ write_all kGlobalOffsetGen12 global_mocs in
      match GetLncfMemoryObjectControlStateGen12 [] with
      | None => None
      | Some lncf_mocs =>
          match pack_lncf lncf_mocs with
          | None => None
          | Some lncf_mocs_32 =>
              Some (true, register_io ++ write_all kOffset lncf_mocs_32)
          end
      end
  end.

End Tables.

(** Sample [format] functions for concrete runs. *)
Definition sample_format (c : Cacheability) (t : Cache) (l : LruManagement)
  : Z :=
  (match c with UNCACHED => 1 | PAGETABLE => 0 | WRITEBACK => 3 end)
  + 4 * (match t with LLC => 1 | LLC_ELLC => 2 end)
  + 16 * (match l with LRU_0 => 0 | LRU_3 => 3 end).

Definition sample_lncf_format (c : LncfCacheability) : Z :=
  match c with LNCF_UNCACHED => 16 | LNCF_WRITEBACK => 48 end.

End CacheConfig.

(** ** Start-up thread of the AV400 board driver

    [src/devices/board/drivers/av400/av400.cc], [Av400::Thread]. *)

Module Av400.

(** The initialisation members called by [Thread], in the order of the
    source: [GpioInit], [PwmInit], ... [DspInit]. *)
Inductive init_fn : Type :=
| GpioInit | PwmInit | ClkInit | I2cInit | RegistersInit | EmmcInit
| SpiInit | SdioInit | EthInit | RtcInit | AudioInit | UsbInit
| ThermalInit | SysmemInit | TeeInit | PowerInit | CpuInit | DmcInit
| ButtonsInit | MailboxInit | DspInit.

(** What the thread lets the outside see: its log lines and its replies
    to the init transaction. *)
Inductive event : Type :=
| LogInfo
| LogError (f : init_fn) (status : zx_status_t)
| Reply (status : zx_status_t).

Record board (World : Type) : Type := mk_board {
  world : World;
  events : list event
}.
Arguments mk_board {World}.
Arguments world {World}.
Arguments events {World}.

Definition emit {World : Type} (e : event) (b : board World) : board World :=
  mk_board (world b) (events b ++ [e]).

Section Thread.
Context {World : Type}.

(** The bodies of the initialisation members are in other files of the
    driver; each acts on the board and answers a status. *)
Variable init : init_fn -> World -> zx_status_t * World.

(** [if ((status = F()) != ZX_OK) { zxlogf(ERROR, ...);
    init_txn_->Reply(status); return status; }], followed by the rest of
    the function. *)
Definition try_init (f : init_fn)
    (rest : zx_status_t -> board World -> zx_status_t * board World)
    (b : board World) : zx_status_t * board World :=
  let '(status, w) := init f (world b) in
  let b := mk_board w (events b) in
  if negb (status =? ZX_OK) then
    (status, emit (Reply status) (emit (LogError f status) b))
  else rest status b.

Definition Thread (b : board World) : zx_status_t * board World :=
  let b := emit LogInfo b in
  try_init GpioInit (fun _ =>
  try_init PwmInit (fun _ =>
  try_init ClkInit (fun _ =>
  try_init I2cInit (fun _ =>
  try_init RegistersInit (fun _ =>
  try_init EmmcInit (fun _ =>
  try_init SpiInit (fun _ =>
  try_init SdioInit (fun _ =>
  try_init EthInit (fun _ =>
  try_init RtcInit (fun _ =>
  try_init AudioInit (fun _ =>
  try_init UsbInit (fun _ =>
  try_init ThermalInit (fun _ =>
  try_init SysmemInit (fun _ =>
  try_init TeeInit (fun _ =>
  try_init PowerInit (fun _ =>
  try_init CpuInit (fun _ =>
  try_init DmcInit (fun _ =>
  try_init ButtonsInit (fun _ =>
  try_init MailboxInit (fun _ =>
  try_init DspInit (fun status b =>
    (ZX_OK, emit (Reply status) b)))))))))))))))))))))) b.

End Thread.

(** The chain of [Thread] for an arbitrary list of members;
    [Thread_chain] below shows that [Thread] is this chain over
    [init_order]. *)
Fixpoint chain {World : Type}
    (init : init_fn -> World -> zx_status_t * World) (fs : list init_fn)
    (final : zx_status_t -> board World -> zx_status_t * board World)
    (status : zx_status_t) (b : board World) : zx_status_t * board World :=
  match fs with
  | [] => final status b
  | f :: fs' =>
      try_init init f (fun status' b' => chain init fs' final status' b') b
  end.

(** The members in the order in which [Thread] names them. *)
Definition init_order : list init_fn :=
  [GpioInit; PwmInit; ClkInit; I2cInit; RegistersInit; EmmcInit; SpiInit;
   SdioInit; EthInit; RtcInit; AudioInit; UsbInit; ThermalInit; SysmemInit;
   TeeInit; PowerInit; CpuInit; DmcInit; ButtonsInit; MailboxInit; DspInit].

(** Members that also note down that they were called, and with what
    result. *)
Definition logged_init {World : Type}
    (init : init_fn -> World -> zx_status_t * World)
  : init_fn -> World * list (init_fn * zx_status_t)
    -> zx_status_t * (World * list (init_fn * zx_status_t)) :=
  fun f wl =>
    let '(status, w) := init f (fst wl) in
    (status, (w, snd wl ++ [(f, status)])).

Definition is_reply (e : event) : bool :=
  match e with Reply _ => true | _ => false end.

(** A sample board for concrete runs: the world counts the members that
    have run, and the member [bad] fails. *)
Definition init_fn_eqb (f g : init_fn) : bool :=
  match f, g with
  | GpioInit, GpioInit | PwmInit, PwmInit | ClkInit, ClkInit
  | I2cInit, I2cInit | RegistersInit, RegistersInit | EmmcInit, EmmcInit
  | SpiInit, SpiInit | SdioInit, SdioInit | EthInit, EthInit
  | RtcInit, RtcInit | AudioInit, AudioInit | UsbInit, UsbInit
  | ThermalInit, ThermalInit | SysmemInit, SysmemInit | TeeInit, TeeInit
  | PowerInit, PowerInit | CpuInit, CpuInit | DmcInit, DmcInit
  | ButtonsInit, ButtonsInit | MailboxInit, MailboxInit
  | DspInit, DspInit => true
  | _, _ => false
  end.

Definition sample_init (bad : init_fn) : init_fn -> Z -> zx_status_t * Z :=
  fun f w => if init_fn_eqb f bad then (-2, w) else (ZX_OK, w + 1).

End Av400.

(** ** The mock accessibility focus manager

    [src/ui/a11y/lib/screen_reader/focus/tests/mocks/mock_a11y_focus_manager.cc].
    The members are those the file uses; the callbacks are taken to act
    outside the mock, and each call of one is noted down. *)

Module MockFocus.

Record A11yFocusInfo : Type := mk_focus {
  view_ref_koid : Z;
  node_id : Z
}.

(** The calls the mock makes into its callbacks. *)
Inductive callback_call : Type :=
| SetA11yFocusCallback (ok : bool)
| OnA11yFocusUpdated (focus : option A11yFocusInfo).

Record MockA11yFocusManager : Type := mk_mock {
  get_a11y_focus_called_ : bool;
  set_a11y_focus_called_ : bool;
  update_highlights_called_ : bool;
  should_get_a11y_focus_fail_ : bool;
  should_set_a11y_focus_fail_ : bool;
  a11y_focus_info_ : option A11yFocusInfo;
  (** whether [on_a11y_focus_updated_callback_] holds a function *)
  on_a11y_focus_updated_callback_ : bool;
  callback_calls : list callback_call
}.

Definition with_get_called (v : bool) (m : MockA11yFocusManager) :=
  mk_mock v (set_a11y_focus_called_ m) (update_highlights_called_ m)
    (should_get_a11y_focus_fail_ m) (should_set_a11y_focus_fail_ m)
    (a11y_focus_info_ m) (on_a11y_focus_updated_callback_ m)
    (callback_calls m).

Definition with_set_called (v : bool) (m : MockA11yFocusManager) :=
  mk_mock (get_a11y_focus_called_ m) v (update_highlights_called_ m)
    (should_get_a11y_focus_fail_ m) (should_set_a11y_focus_fail_ m)
    (a11y_focus_info_ m) (on_a11y_focus_updated_callback_ m)
    (callback_calls m).

Definition with_update_highlights_called (v : bool)
    (m : MockA11yFocusManager) :=
  mk_mock (get_a11y_focus_called_ m) (set_a11y_focus_called_ m) v
    (should_get_a11y_focus_fail_ m) (should_set_a11y_focus_fail_ m)
    (a11y_focus_info_ m) (on_a11y_focus_updated_callback_ m)
    (callback_calls m).

Definition with_focus (v : option A11yFocusInfo)
    (m : MockA11yFocusManager) :=
  mk_mock (get_a11y_focus_called_ m) (set_a11y_focus_called_ m)
    (update_highlights_called_ m)
    (should_get_a11y_focus_fail_ m) (should_set_a11y_focus_fail_ m)
    v (on_a11y_focus_updated_callback_ m) (callback_calls m).

Definition call_back (c : callback_call) (m : MockA11yFocusManager) :=
  mk_mock (get_a11y_focus_called_ m) (set_a11y_focus_called_ m)
    (update_highlights_called_ m)
    (should_get_a11y_focus_fail_ m) (should_set_a11y_focus_fail_ m)
    (a11y_focus_info_ m) (on_a11y_focus_updated_callback_ m)
    (callback_calls m ++ [c]).

Definition GetA11yFocus (m : MockA11yFocusManager)
  : option A11yFocusInfo * MockA11yFocusManager :=
  let m := with_get_called true m in
  if negb (should_get_a11y_focus_fail_ m) then (a11y_focus_info_ m, m)
  else (None, m).

Definition UpdateA11yFocus (koid node_id : Z) (m : MockA11yFocusManager)
  : MockA11yFocusManager :=
  with_focus (Some (mk_focus koid node_id)) m.

Definition SetA11yFocus (koid node_id : Z) (m : MockA11yFocusManager)
  : MockA11yFocusManager :=
  let m := with_set_called true m in
  if should_set_a11y_focus_fail_ m then
    call_back (SetA11yFocusCallback false) m
  else
    let m := UpdateA11yFocus koid node_id m in
    let m :=
      if on_a11y_focus_updated_callback_ m then
        let '(focus, m) := GetA11yFocus m in
        call_back (OnA11yFocusUpdated focus) m
      else m in
    call_back (SetA11yFocusCallback true) m.

Definition ClearA11yFocus (m : MockA11yFocusManager)
  : MockA11yFocusManager :=
  with_focus None m.

Definition UpdateHighlights (koid node_id : Z) (m : MockA11yFocusManager)
  : MockA11yFocusManager :=
  with_update_highlights_called true m.

Definition IsGetA11yFocusCalled (m : MockA11yFocusManager) : bool :=
  get_a11y_focus_called_ m.

Definition IsSetA11yFocusCalled (m : MockA11yFocusManager) : bool :=
  set_a11y_focus_called_ m.

Definition IsUpdateHighlightsCalled (m : MockA11yFocusManager) : bool :=
  update_highlights_called_ m.

Definition ResetExpectations (m : MockA11yFocusManager)
  : MockA11yFocusManager :=
  with_set_called false (with_get_called false m).

End MockFocus.

(** ** Transcoder registers of the Tiger Lake display driver

    [src/graphics/display/drivers/intel-i915-tgl/registers-transcoder.h]:
    the helpers that encode and decode field values, and the register
    addresses.  [ZX_ASSERT] stops the program and is [None] here;
    [ZX_DEBUG_ASSERT] is compiled out of release builds, which is the
    build modelled. *)

Module Transcoder.

(** Conversions to the fixed-width integer types. *)
Definition uint8 (z : Z) : Z := z mod 2 ^ 8.
Definition uint32 (z : Z) : Z := z mod 2 ^ 32.
Definition int8 (z : Z) : Z := (z + 2 ^ 7) mod 2 ^ 8 - 2 ^ 7.
Definition int32 (z : Z) : Z := (z + 2 ^ 31) mod 2 ^ 32 - 2 ^ 31.

(** The two accessors that [DEF_FIELD(high, low, name)] declares on a
    register class: [name()] and [set_name(value)].  The macro comes from
    [hwreg/bitfields.h], which is not among the sources at hand, so the
    accessors are taken as given. *)
Record field (Reg : Type) : Type := mk_field {
  get : Reg -> Z;
  set : Z -> Reg -> Reg
}.
Arguments mk_field {Reg}.
Arguments get {Reg}.
Arguments set {Reg}.

(** What the helpers rely on, as their comments say ("is a 4-bit
    field"): a field of [bits] bits reads values below [2^bits], and
    reads back a value of that range that was written to it. *)
Definition field_ok {Reg : Type} (bits : Z) (f : field Reg) : Prop :=
  (forall r, 0 <= get f r < 2 ^ bits)
  /\ (forall v r, 0 <= v < 2 ^ bits -> get f (set f v r) = v).



Section Registers.
Context {Reg : Type}.

(** The enumerators of [Ddi] and [Trans] that the file names, declared
    in [hardware-common.h]; a value of either type is its integer. *)
Variable DDI_A : Z.
Variables TRANS_A TRANS_C TRANS_EDP : Z.

(** *** [TranscoderDdiControl] *)

(** [DEF_FIELD(30, 27, ddi_select_subtle)] *)
Variable ddi_select_subtle : field Reg.





(** [DEF_FIELD(19, 18, port_sync_primary_transcoder_select_kaby_lake)] *)
Variable port_sync_primary_transcoder_select_kaby_lake : field Reg.

Definition port_sync_primary_transcoder_kaby_lake (r : Reg) : Z :=
  let raw_port_sync_primary_select :=
    int8 (get port_sync_primary_transcoder_select_kaby_lake r) in
  if raw_port_sync_primary_select =? 0 then TRANS_EDP
  else TRANS_A + (raw_port_sync_primary_select - 1).

Definition set_port_sync_primary_kaby_lake (transcoder : Z) (r : Reg)
  : option Reg :=
  if transcoder =? TRANS_EDP then
    Some (set port_sync_primary_transcoder_select_kaby_lake 0 r)
  else if negb (transcoder >=? TRANS_A) then None
  else if negb (transcoder <=? TRANS_C) then None
  else
    Some (set port_sync_primary_transcoder_select_kaby_lake
            (uint32 ((transcoder - TRANS_A) + 1)) r).

(** [DEF_FIELD(14, 12, input_pipe_select)] *)
Variable input_pipe_select : field Reg.



(** [DEF_FIELD(3, 1, display_port_lane_count_selection)] *)
Variable display_port_lane_count_selection : field Reg.

Definition display_port_lane_count (r : Reg) : Z :=
  uint8 (int8 (get display_port_lane_count_selection r + 1)).

Definition set_display_port_lane_count (lane_count : Z) (r : Reg) : Reg :=
  set display_port_lane_count_selection (uint32 (lane_count - 1)) r.

(** *** [TranscoderClockSelect] *)

(** [DEF_FIELD(31, 28, ddi_clock_select_subtle)] *)
Variable ddi_clock_select_subtle : field Reg.






(** *** [TranscoderDataM] *)

(** [DEF_FIELD(30, 25, payload_size_select)] *)
Variable payload_size_select : field Reg.

Definition payload_size (r : Reg) : Z :=
  int32 (int32 (get payload_size_select r) + 1).

Definition set_payload_size (payload_size : Z) (r : Reg) : Reg :=
  set payload_size_select (uint32 (payload_size - 1)) r.

(** *** Register addresses *)

(** The shape shared by the [GetForKabyLakeTranscoder] functions; they
    differ in the two addresses only. *)
Definition KabyLakeAddress (edp_address base : Z) (transcoder : Z)
  : option Z :=
  if transcoder =? TRANS_EDP then Some edp_address
  else if negb (transcoder >=? TRANS_A) then None
  else if negb (transcoder <=? TRANS_C) then None
  else
    let transcoder_index := transcoder - TRANS_A in
    Some (base + 4096 * transcoder_index).

(** The shape shared by the [GetForTigerLakeTranscoder] functions and
    [TranscoderClockSelect::GetForTranscoder]. *)
Definition TigerLakeAddress (base stride : Z) (transcoder : Z) : option Z :=
  if negb (transcoder >=? TRANS_A) then None
  else if negb (transcoder <=? TRANS_C) then None
  else
    let transcoder_index := transcoder - TRANS_A in
    Some (base + stride * transcoder_index).

Definition DdiControl_GetForKabyLakeTranscoder := KabyLakeAddress 0x6f400 0x60400.
Definition DdiControl_GetForTigerLakeTranscoder := TigerLakeAddress 0x60400 4096.
Definition Config_GetForKabyLakeTranscoder := KabyLakeAddress 0x7f008 0x70008.
Definition Config_GetForTigerLakeTranscoder := TigerLakeAddress 0x70008 4096.
Definition ClockSelect_GetForTranscoder := TigerLakeAddress 0x46140 4.
Definition DataM_GetForKabyLakeTranscoder := KabyLakeAddress 0x6f030 0x60030.
Definition DataM_GetForTigerLakeTranscoder := TigerLakeAddress 0x60030 4096.
Definition DataN_GetForKabyLakeTranscoder := KabyLakeAddress 0x6f034 0x60034.
Definition DataN_GetForTigerLakeTranscoder := TigerLakeAddress 0x60034 4096.
Definition LinkM_GetForKabyLakeTranscoder := KabyLakeAddress 0x6f040 0x60040.
Definition LinkM_GetForTigerLakeTranscoder := TigerLakeAddress 0x60040 4096.
Definition LinkN_GetForKabyLakeTranscoder := KabyLakeAddress 0x6f044 0x60044.
Definition LinkN_GetForTigerLakeTranscoder := TigerLakeAddress 0x60044 4096.
Definition MainStreamAttributeMisc_GetForKabyLakeTranscoder :=
  KabyLakeAddress 0x6f410 0x60410.
Definition MainStreamAttributeMisc_GetForTigerLakeTranscoder :=
  TigerLakeAddress 0x60410 4096.

(** *** [TranscoderRegs] *)

Record TranscoderRegs : Type := mk_regs { transcoder_ : Z; offset_ : Z }.

Definition new_TranscoderRegs (transcoder : Z) : TranscoderRegs :=
  mk_regs transcoder
    (if transcoder =? TRANS_EDP then 0xf000 else uint32 (transcoder * 4096)).

Definition GetReg (base_addr : Z) (regs : TranscoderRegs) : Z :=
  uint32 (base_addr + offset_ regs).

Definition HTotal := GetReg 0x60000.
Definition HBlank := GetReg 0x60004.
Definition HSync := GetReg 0x60008.
Definition VTotal := GetReg 0x6000c.
Definition VBlank := GetReg 0x60010.
Definition VSync := GetReg 0x60014.
Definition VSyncShift := GetReg 0x60028.

Definition DdiControl (regs : TranscoderRegs) : option Z :=
  DdiControl_GetForKabyLakeTranscoder (transcoder_ regs).
Definition Config (regs : TranscoderRegs) : option Z :=
  Config_GetForKabyLakeTranscoder (transcoder_ regs).
Definition ClockSelect (regs : TranscoderRegs) : option Z :=
  ClockSelect_GetForTranscoder (transcoder_ regs).
Definition MainStreamAttributeMisc (regs : TranscoderRegs) : option Z :=
  MainStreamAttributeMisc_GetForKabyLakeTranscoder (transcoder_ regs).
Definition DataM (regs : TranscoderRegs) : option Z :=
  DataM_GetForKabyLakeTranscoder (transcoder_ regs).
Definition DataN (regs : TranscoderRegs) : option Z :=
  DataN_GetForKabyLakeTranscoder (transcoder_ regs).
Definition LinkM (regs : TranscoderRegs) : option Z :=
  LinkM_GetForKabyLakeTranscoder (transcoder_ regs).
Definition LinkN (regs : TranscoderRegs) : option Z :=
  LinkN_GetForKabyLakeTranscoder (transcoder_ regs).

End Registers.

(** A sample register for concrete runs: a 32-bit word whose field
    [high:low] is read and written by division and remainder. *)
Definition bit_field (high low : Z) : field Z :=
  let bits := high - low + 1 in
  mk_field
    (fun r => (r / 2 ^ low) mod 2 ^ bits)
    (fun v r => r + (v - (r / 2 ^ low) mod 2 ^ bits) * 2 ^ low).

End Transcoder.

(** * Properties *)

(** ** Arithmetic of [size_t] *)

Lemma wrap_small (z : Z) : is_size_t z -> wrap z = z.
Proof. unfold is_size_t, wrap. intros H. now apply Z.mod_small. Qed.

Lemma wrap_is_size_t (z : Z) : is_size_t (wrap z).
Proof.
  unfold is_size_t, wrap. apply Z.mod_pos_bound. unfold size_modulus. lia.
Qed.

Lemma invalid_args_is_failure : ZX_ERR_INVALID_ARGS <> ZX_OK.
Proof. discriminate. Qed.

(** ** The generic loop *)

Module VectorFacts.
Import Vector.

Section Loop.
Context {S : Type}.
Variable fn : transfer S.

(** Case analysis on one round of the loop. *)
Ltac round e s :=
  destruct (capacity e =? 0) eqn:Hzero;
  [ | destruct (fn (buffer e) (capacity e) s) as [[status actual] s1] eqn:Hcall;
      destruct (status =? ZX_OK) eqn:Hok; cbn [negb];
      [ destruct (bytes_moved actual <? capacity e) eqn:Hshort | ] ].

Lemma logged_call (buf cap : Z) (s : S) (log : list (invocation S)) :
  logged fn buf cap (s, log)
  = (fst (fn buf cap s),
     (snd (fn buf cap s),
      log ++ [mk_invocation buf cap s (fst (fst (fn buf cap s)))
                (snd (fst (fn buf cap s))) (snd (fn buf cap s))])).
Proof.
  unfold logged. cbn [fst snd]. now destruct (fn buf cap s) as [[st a] s1].
Qed.

(** Running the loop over the wrapped closure gives the answer and the
    state of the plain run, and appends [trace] to the log. *)
Lemma loop_logged (vector : list zx_iovec_t) :
  forall total s log,
    do_vector_loop vector total (logged fn) (s, log)
    = (fst (do_vector_loop vector total fn s),
       (snd (do_vector_loop vector total fn s), log ++ trace vector fn s)).
Proof.
  induction vector as [|e rest IH]; intros total s log; cbn [do_vector_loop trace].
  - now rewrite app_nil_r.
  - round e s; [apply IH | | | ];
      rewrite logged_call, Hcall; cbn [fst snd]; rewrite Hok; cbn [negb];
      rewrite ?Hshort; try reflexivity.
    rewrite IH. now rewrite <- app_assoc.
Qed.

Lemma invocations_trace (vector : list zx_iovec_t) (s : S) :
  invocations vector fn s = trace vector fn s.
Proof.
  unfold invocations, zxio_do_vector. now rewrite loop_logged.
Qed.

Lemma logged_result (vector : list zx_iovec_t) (s : S) :
  fst (zxio_do_vector vector (logged fn) (s, []))
  = fst (zxio_do_vector vector fn s)
  /\ fst (snd (zxio_do_vector vector (logged fn) (s, [])))
     = snd (zxio_do_vector vector fn s).
Proof.
  unfold zxio_do_vector. now rewrite loop_logged.
Qed.

(** The records of a run are faithful and chained, from the starting
    state to the final one, and none is for an entry of length zero. *)
Lemma trace_faithful (vector : list zx_iovec_t) :
  forall s, Forall (faithful fn) (trace vector fn s).
Proof.
  induction vector as [|e rest IH]; intros s; cbn [trace]; [constructor|].
  round e s; auto; repeat constructor; auto.
Qed.

Lemma trace_chained (vector : list zx_iovec_t) :
  forall total s,
    chained s (trace vector fn s) (snd (do_vector_loop vector total fn s)).
Proof.
  induction vector as [|e rest IH]; intros total s;
    cbn [trace do_vector_loop]; [reflexivity|].
  round e s; cbn [chained inv_before inv_after snd]; auto.
Qed.

Lemma trace_nonzero (vector : list zx_iovec_t) :
  forall s, Forall (fun i => inv_capacity i <> 0) (trace vector fn s).
Proof.
  induction vector as [|e rest IH]; intros s; cbn [trace]; [constructor|].
  round e s; auto; apply Z.eqb_neq in Hzero; repeat constructor; auto.
Qed.

(** An entry of length zero changes nothing. *)
Lemma loop_skips_empty (vector : list zx_iovec_t) :
  forall total s,
    do_vector_loop vector total fn s
    = do_vector_loop (filter nonempty vector) total fn s.
Proof.
  induction vector as [|e rest IH]; intros total s; [reflexivity|].
  cbn [filter]. unfold nonempty at 1.
  destruct (capacity e =? 0) eqn:Hzero; cbn [negb].
  - cbn [do_vector_loop]. rewrite Hzero. apply IH.
  - cbn [do_vector_loop]. rewrite Hzero.
    destruct (fn (buffer e) (capacity e) s) as [[status actual] s1].
    destruct (negb (status =? ZX_OK)); [reflexivity|].
    destruct (bytes_moved actual <? capacity e); [reflexivity|]. apply IH.
Qed.

(** Every call is made for an entry of the descriptor. *)
Lemma trace_requested (vector : list zx_iovec_t) :
  forall s, Forall (fun i => In (requested i) vector) (trace vector fn s).
Proof.
  induction vector as [|e rest IH]; intros s; cbn [trace]; [constructor|].
  assert (Hweak : forall s', Forall (fun i => In (requested i) (e :: rest))
                               (trace rest fn s')).
  { intros s'. eapply Forall_impl; [|apply IH]. intros i Hi. now right. }
  assert (Hhead : forall st a s',
             In (requested (mk_invocation (buffer e) (capacity e) s st a s'))
                (e :: rest)).
  { intros st a s'. left. now destruct e. }
  round e s; auto.
Qed.

(** A property that every call for an entry of the descriptor keeps
    holds before every call of a run and at its end. *)
Lemma trace_invariant (P : S -> Prop) (Q : zx_iovec_t -> Prop) :
  (forall e s, Q e -> P s -> P (snd (fn (buffer e) (capacity e) s))) ->
  forall vector total s,
    Forall Q vector -> P s ->
    Forall (fun i => P (inv_before i)) (trace vector fn s)
    /\ P (snd (do_vector_loop vector total fn s)).
Proof.
  intros Hstep. induction vector as [|e rest IH]; intros total s HQ Hs;
    cbn [trace do_vector_loop]; [split; [constructor | exact Hs]|].
  inversion HQ as [|e' rest' He Hrest]; subst.
  round e s; auto;
    pose proof (Hstep e s He Hs) as Hs1;
    rewrite Hcall in Hs1; cbn [snd] in Hs1.
  - split; [repeat constructor; exact Hs | exact Hs1].
  - destruct (IH (total + bytes_moved actual) s1 Hrest Hs1) as [Ha Hb].
    split; [constructor; [exact Hs | exact Ha] | exact Hb].
  - split; [repeat constructor; exact Hs | exact Hs1].
Qed.

(** The outline of a run, and its total. *)
Lemma loop_shape (vector : list zx_iovec_t) :
  forall total s,
    exists rest,
      filter nonempty vector = map requested (trace vector fn s) ++ rest
      /\ run_shape (trace vector fn s) rest
           (fst (fst (do_vector_loop vector total fn s)))
      /\ snd (fst (do_vector_loop vector total fn s))
         = total + sum_moved (filter completed (trace vector fn s)).
Proof.
  induction vector as [|e rest IH]; intros total s;
    cbn [trace do_vector_loop filter].
  - exists []. cbn. repeat split; [constructor | lia].
  - unfold nonempty at 1. round e s; cbn [negb fst snd].
    + apply IH.
    + exists (filter nonempty rest). split; [|split].
      * now destruct e.
      * apply shape_short; unfold completed, short, moved; cbn; assumption.
      * unfold sum_moved, completed. cbn [filter inv_status]. rewrite Hok.
        cbn [map fold_right]. unfold moved. cbn [inv_actual]. lia.
    + destruct (IH (total + bytes_moved actual) s1)
        as (rest' & Hnz & Hshape & Htot).
      exists rest'. split; [|split].
      * cbn [map app]. rewrite Hnz. now destruct e.
      * apply shape_full; unfold completed, short, moved; cbn; assumption.
      * rewrite Htot. unfold sum_moved, completed at 2.
        cbn [filter inv_status]. rewrite Hok. cbn [map fold_right].
        unfold moved at 2. cbn [inv_actual]. symmetry. apply Z.add_assoc.
    + exists (filter nonempty rest). split; [|split].
      * now destruct e.
      * pose proof (shape_error
                      (mk_invocation (buffer e) (capacity e) s status actual s1)
                      (filter nonempty rest)) as H.
        cbn [inv_status] in H. apply H. unfold completed. cbn. assumption.
      * unfold sum_moved, completed. cbn [filter inv_status]. rewrite Hok.
        cbn [map fold_right]. lia.
Qed.

End Loop.

(** *** Reading an outline *)

Lemma shape_nil {S : Type} (rest : list zx_iovec_t) (st : zx_status_t) :
  @run_shape S [] rest st -> st = ZX_OK /\ rest = [].
Proof. intros H. inversion H; subst. now split. Qed.

(** Every call but the last one completed and was not short. *)
Lemma shape_inner {S : Type} (l : list (invocation S)) rest st :
  run_shape l rest st ->
  forall earlier i later,
    l = earlier ++ i :: later -> later <> [] ->
    completed i = true /\ short i = false.
Proof.
  induction 1 as [|i0 rest Herr|i0 rest Hc Hs|i0 l rest st Hc Hs Hrun IH];
    intros earlier i later Heq Hlater.
  - now destruct earlier.
  - destruct earlier as [|x [|y earlier]]; inversion Heq; subst; congruence.
  - destruct earlier as [|x [|y earlier]]; inversion Heq; subst; congruence.
  - destruct earlier as [|x earlier]; inversion Heq; subst.
    + now split.
    + eapply IH; eauto.
Qed.

Lemma shape_earlier {S : Type} (l : list (invocation S)) rest st :
  run_shape l rest st ->
  forall earlier last,
    l = earlier ++ [last] ->
    Forall (fun i => completed i = true /\ short i = false) earlier.
Proof.
  intros Hrun earlier last Heq. apply Forall_forall. intros i Hin.
  destruct (in_split _ _ Hin) as (l1 & l2 & ->).
  rewrite <- app_assoc in Heq. cbn [app] in Heq.
  eapply (shape_inner _ _ _ Hrun); [exact Heq|]. now destruct l2.
Qed.

(** The last call decides the status. *)
Lemma shape_last {S : Type} (l : list (invocation S)) rest st :
  run_shape l rest st ->
  forall earlier last,
    l = earlier ++ [last] ->
    (completed last = false -> st = inv_status last)
    /\ (completed last = true ->
        st = ZX_OK /\ (short last = false -> rest = [])).
Proof.
  induction 1 as [|i0 rest Herr|i0 rest Hc Hs|i0 l rest st Hc Hs Hrun IH];
    intros earlier last Heq.
  - now destruct earlier.
  - destruct earlier as [|x [|y earlier]]; inversion Heq; subst.
    split; [reflexivity | congruence].
  - destruct earlier as [|x [|y earlier]]; inversion Heq; subst.
    split; [congruence | intros _; split; [reflexivity | congruence]].
  - destruct earlier as [|x earlier]; inversion Heq; subst.
    + inversion Hrun; subst. split; [congruence | now intros _; split].
    + eapply IH; eauto.
Qed.

Lemma sum_moved_app {S : Type} (l1 l2 : list (invocation S)) :
  sum_moved (l1 ++ l2) = sum_moved l1 + sum_moved l2.
Proof.
  unfold sum_moved. induction l1 as [|i l1 IH]; cbn [app map fold_right].
  - lia.
  - rewrite IH. lia.
Qed.

Lemma filter_all_completed {S : Type} (l : list (invocation S)) :
  Forall (fun i => completed i = true /\ short i = false) l ->
  filter completed l = l.
Proof.
  induction 1 as [|i l [Hc _] _ IH]; cbn [filter]; [reflexivity|].
  now rewrite Hc, IH.
Qed.

Lemma sum_moved_completed {S : Type} (l : list (invocation S)) :
  Forall (fun i => completed i = false -> moved i = 0) l ->
  sum_moved (filter completed l) = sum_moved l.
Proof.
  unfold sum_moved.
  induction 1 as [|i l Hi _ IH]; cbn [filter map fold_right]; [reflexivity|].
  destruct (completed i) eqn:Hc; cbn [map fold_right].
  - now rewrite IH.
  - rewrite IH, (Hi eq_refl). lia.
Qed.

Lemma run_total {S : Type} (fn : transfer S) (vector : list zx_iovec_t)
    (s : S) :
  snd (fst (zxio_do_vector vector fn s))
  = sum_moved (filter completed (invocations vector fn s)).
Proof.
  rewrite invocations_trace. unfold zxio_do_vector.
  destruct (loop_shape fn vector 0 s) as (rest & _ & _ & Htot).
  rewrite Htot. lia.
Qed.

Lemma run_outline {S : Type} (fn : transfer S) (vector : list zx_iovec_t)
    (s : S) :
  exists rest,
    run_shape (invocations vector fn s) rest
      (fst (fst (zxio_do_vector vector fn s))).
Proof.
  rewrite invocations_trace. unfold zxio_do_vector.
  destruct (loop_shape fn vector 0 s) as (rest & _ & Hshape & _).
  now exists rest.
Qed.

(** *** Following a chain of calls *)

Lemma chained_app {S : Type} (l1 l2 : list (invocation S)) :
  forall s s',
    chained s (l1 ++ l2) s' ->
    exists m, chained s l1 m /\ chained m l2 s'.
Proof.
  induction l1 as [|i l1 IH]; intros s s' H; cbn [app chained] in *.
  - exists s. now split.
  - destruct H as [Hb H]. destruct (IH _ _ H) as (m & H1 & H2).
    exists m. now repeat split.
Qed.

(** A list that every call extends by one item grows by one item per
    call over a chain. *)
Lemma chained_appends {S A : Type} (g : S -> list A)
    (f : invocation S -> A) (l : list (invocation S)) :
  forall s s',
    chained s l s' ->
    Forall (fun i => g (inv_after i) = g (inv_before i) ++ [f i]) l ->
    g s' = g s ++ map f l.
Proof.
  induction l as [|i l IH]; intros s s' Hch Hall; cbn [chained map] in *.
  - subst. now rewrite app_nil_r.
  - destruct Hch as [Hb Hch]. inversion Hall as [|i' l' Hi Hl]; subst.
    rewrite (IH _ _ Hch Hl), Hi, <- app_assoc. reflexivity.
Qed.

(** A counter that every call advances by the bytes it moved advances
    by their sum over a chain. *)
Lemma chained_advances {S : Type} (h : S -> Z) (l : list (invocation S)) :
  forall s s',
    chained s l s' ->
    Forall (fun i => h (inv_after i) = h (inv_before i) + moved i) l ->
    h s' = h s + sum_moved l.
Proof.
  unfold sum_moved.
  induction l as [|i l IH]; intros s s' Hch Hall;
    cbn [chained map fold_right] in *.
  - subst. lia.
  - destruct Hch as [Hb Hch]. inversion Hall as [|i' l' Hi Hl]; subst.
    rewrite (IH _ _ Hch Hl), Hi. lia.
Qed.

(** C5: the total handed back by [zxio_do_vector] is the sum of the bytes
    moved by the calls of the closure that completed.  The calls are made
    for the entries of nonzero length, in order and without gaps; every
    call but the last completed and moved all it was asked for, so the run
    stops at the first short entry, with success and the partial total;
    when the closure fails, the run stops there, hands that error back,
    and the total is the one accumulated before the failing entry. *)
Theorem do_vector_accounting {S : Type} (fn : transfer S)
    (vector : list zx_iovec_t) (s : S) :
  let status := fst (fst (zxio_do_vector vector fn s)) in
  let total := snd (fst (zxio_do_vector vector fn s)) in
  let log := invocations vector fn s in
  Forall (faithful fn) log
  /\ chained s log (snd (zxio_do_vector vector fn s))
  /\ total = sum_moved (filter completed log)
  /\ (exists rest,
        filter nonempty vector = map requested log ++ rest
        /\ (log = [] -> rest = [])
        /\ (forall earlier last,
              log = earlier ++ [last] ->
              completed last = true -> short last = false -> rest = []))
  /\ (forall earlier i later,
        log = earlier ++ i :: later -> later <> [] ->
        completed i = true /\ short i = false)
  /\ (forall earlier last,
        log = earlier ++ [last] -> completed last = true ->
        status = ZX_OK /\ total = sum_moved earlier + moved last)
  /\ (forall earlier last,
        log = earlier ++ [last] -> completed last = false ->
        status = inv_status last /\ status <> ZX_OK
        /\ total = sum_moved earlier)
  /\ (log = [] -> status = ZX_OK /\ total = 0).
Proof.
  cbv zeta. rewrite invocations_trace. unfold zxio_do_vector.
  destruct (loop_shape fn vector 0 s) as (rest & Hnz & Hshape & Htot).
  rewrite Z.add_0_l in Htot.
  split; [apply trace_faithful|].
  split; [apply trace_chained|].
  split; [exact Htot|].
  split.
  { exists rest. split; [exact Hnz|]. split.
    - intros Hnil. rewrite Hnil in Hshape. now apply shape_nil in Hshape.
    - intros earlier last Heq Hc Hs.
      now apply (shape_last _ _ _ Hshape earlier last Heq). }
  split; [apply (shape_inner _ _ _ Hshape)|].
  split.
  { intros earlier last Heq Hc.
    split; [now apply (shape_last _ _ _ Hshape earlier last Heq)|].
    rewrite Htot, Heq, filter_app, sum_moved_app.
    rewrite (filter_all_completed earlier)
      by (eapply shape_earlier; eauto).
    cbn [filter]. rewrite Hc. unfold sum_moved at 2. cbn [map fold_right]. lia. }
  split.
  { intros earlier last Heq Hc.
    assert (Hst : fst (fst (do_vector_loop vector 0 fn s)) = inv_status last)
      by now apply (shape_last _ _ _ Hshape earlier last Heq).
    split; [exact Hst|]. split.
    - rewrite Hst. unfold completed in Hc. now apply Z.eqb_neq.
    - rewrite Htot, Heq, filter_app, sum_moved_app.
      rewrite (filter_all_completed earlier)
        by (eapply shape_earlier; eauto).
      cbn [filter]. rewrite Hc. unfold sum_moved at 2. cbn [map fold_right]. lia. }
  intros Hnil. rewrite Hnil in Hshape, Htot.
  split; [now apply shape_nil in Hshape | exact Htot].
Qed.

(** C6: an entry of length zero is passed over without a call of the
    closure: the run is the run over the entries of nonzero length, no
    recorded call has length zero, and a descriptor made of such entries
    only leaves the state alone.  The empty descriptor gives success and a
    total of zero. *)
Theorem do_vector_skips_empty {S : Type} (fn : transfer S)
    (vector : list zx_iovec_t) (s : S) :
  zxio_do_vector [] fn s = ((ZX_OK, 0), s)
  /\ invocations [] fn s = []
  /\ zxio_do_vector vector fn s
     = zxio_do_vector (filter nonempty vector) fn s
  /\ invocations vector fn s = invocations (filter nonempty vector) fn s
  /\ Forall (fun i => inv_capacity i <> 0) (invocations vector fn s)
  /\ (filter nonempty vector = [] ->
      zxio_do_vector vector fn s = ((ZX_OK, 0), s)
      /\ invocations vector fn s = []).
Proof.
  split; [reflexivity|]. split; [reflexivity|].
  assert (Hrun : zxio_do_vector vector fn s
                 = zxio_do_vector (filter nonempty vector) fn s)
    by apply loop_skips_empty.
  assert (Hlog : invocations vector fn s
                 = invocations (filter nonempty vector) fn s).
  { unfold invocations, zxio_do_vector.
    now rewrite (loop_skips_empty (logged fn) vector). }
  split; [exact Hrun|]. split; [exact Hlog|].
  split; [rewrite invocations_trace; apply trace_nonzero|].
  intros Hnil. rewrite Hrun, Hlog, Hnil. now split.
Qed.

End VectorFacts.

(** ** The bounded adapter *)

Module VmoFacts.
Import Vector Vmo VectorFacts.

Section Bounded.
Context {World : Type}.
Variable fn : primitive World.
Variables start length : Z.
Hypothesis length_is_size_t : is_size_t length.

Local Abbreviation closure := (vmo_closure fn start length).

(** One call of the lambda, once the seek offset is known to lie within
    the resource: no subtraction or addition wraps around. *)
Lemma closure_step (buf cap : Z) (s : file_state World) :
  in_bounds length s -> 0 <= cap ->
  closure buf cap s
  = let o := st_offset s in
    let clipped := Z.min cap (length - o) in
    let r := fn buf (wrap (start + o)) clipped (st_world s) in
    if fst r =? ZX_OK
    then ((ZX_OK, Some clipped), mk_state (o + clipped) (snd r))
    else ((fst r, None), mk_state o (snd r)).
Proof.
  unfold vmo_closure, in_bounds. intros Hs Hcap. cbv zeta.
  unfold is_size_t in length_is_size_t.
  rewrite (wrap_small (length - st_offset s)) by (unfold is_size_t; lia).
  destruct (fn buf (wrap (start + st_offset s))
              (Z.min cap (length - st_offset s)) (st_world s)) as [st w].
  cbn [fst snd]. destruct (st =? ZX_OK); cbn [negb]; [|reflexivity].
  rewrite wrap_small by (unfold is_size_t; lia). reflexivity.
Qed.

Lemma closure_in_bounds (e : zx_iovec_t) (s : file_state World) :
  iovec_ok e -> in_bounds length s ->
  in_bounds length (snd (closure (buffer e) (capacity e) s)).
Proof.
  intros He Hs. unfold iovec_ok, is_size_t in He.
  rewrite closure_step by (auto; lia). cbv zeta.
  unfold in_bounds in *.
  match goal with |- context [if ?b then _ else _] => destruct b end;
    cbn [snd st_offset]; lia.
Qed.

(** While the guard of [zxio_vmo_do_vector] lets the call through, the
    call is the generic loop over the lambda. *)
Lemma vmo_run (vector : list zx_iovec_t) (s : file_state World) :
  in_bounds length s ->
  zxio_vmo_do_vector fn start length vector s
  = ((fst (fst (zxio_do_vector vector closure s)),
      Some (snd (fst (zxio_do_vector vector closure s)))),
     snd (zxio_do_vector vector closure s)).
Proof.
  unfold zxio_vmo_do_vector, in_bounds. intros Hs.
  destruct (Z.gtb_spec (st_offset s) length) as [Hgt|_]; [lia|].
  now destruct (zxio_do_vector vector closure s) as [[st t] s'].
Qed.

(** What holds of every call of the lambda in a run that starts within
    the resource. *)
Lemma run_invocations (vector : list zx_iovec_t) (s : file_state World) :
  in_bounds length s -> Forall iovec_ok vector ->
  Forall (fun i => in_bounds length (inv_before i)
                   /\ 0 <= inv_capacity i
                   /\ faithful closure i)
         (invocations vector closure s)
  /\ in_bounds length (snd (zxio_do_vector vector closure s)).
Proof.
  intros Hs Hvec. rewrite invocations_trace. unfold zxio_do_vector.
  destruct (trace_invariant closure (in_bounds length) iovec_ok
              closure_in_bounds vector 0 s Hvec Hs) as [Hbefore Hfinal].
  split; [|exact Hfinal].
  pose proof (trace_requested closure vector s) as Hreq.
  pose proof (trace_faithful closure vector s) as Hfaith.
  rewrite Forall_forall in *. intros i Hi.
  split; [now apply Hbefore|]. split; [|now apply Hfaith].
  specialize (Hvec _ (Hreq i Hi)). unfold iovec_ok, is_size_t in Hvec.
  cbn in Hvec. lia.
Qed.

(** The answer of a recorded call, spelled out. *)
Lemma invocation_step (i : invocation (file_state World)) :
  in_bounds length (inv_before i) -> 0 <= inv_capacity i ->
  faithful closure i ->
  let o := st_offset (inv_before i) in
  let clipped := Z.min (inv_capacity i) (length - o) in
  let r := fn (inv_buffer i) (wrap (start + o)) clipped
             (st_world (inv_before i)) in
  inv_status i = fst r
  /\ st_world (inv_after i) = snd r
  /\ (fst r = ZX_OK ->
      inv_actual i = Some clipped /\ st_offset (inv_after i) = o + clipped)
  /\ (fst r <> ZX_OK ->
      inv_actual i = None /\ st_offset (inv_after i) = o).
Proof.
  intros Hb Hcap Hf. unfold faithful in Hf.
  rewrite closure_step in Hf by assumption. cbv zeta in *.
  match type of Hf with context [if ?b then _ else _] =>
    destruct b eqn:Hok end;
    inversion Hf as [[Hst Hact Hafter]]; clear Hf.
  - apply Z.eqb_eq in Hok. rewrite Hok.
    repeat split; try reflexivity; try congruence.
  - apply Z.eqb_neq in Hok.
    repeat split; try reflexivity; try congruence.
Qed.

Lemma run_chained (vector : list zx_iovec_t) (s : file_state World) :
  chained s (invocations vector closure s)
    (snd (zxio_do_vector vector closure s)).
Proof. rewrite invocations_trace. apply trace_chained. Qed.

(** Every call advances the seek offset by the bytes it reports, and a
    failed call reports none. *)
Lemma run_offsets (vector : list zx_iovec_t) (s : file_state World) :
  in_bounds length s -> Forall iovec_ok vector ->
  Forall (fun i => st_offset (inv_after i)
                   = st_offset (inv_before i) + moved i)
         (invocations vector closure s)
  /\ Forall (fun i => completed i = false -> moved i = 0)
           (invocations vector closure s).
Proof.
  intros Hs Hvec.
  destruct (run_invocations vector s Hs Hvec) as [Hall _].
  rewrite Forall_forall in Hall.
  split; apply Forall_forall; intros i Hi;
    destruct (Hall i Hi) as (Hb & Hcap & Hf);
    destruct (invocation_step i Hb Hcap Hf) as (Hst & _ & Hok & Herr);
    unfold moved, completed;
    destruct (Z.eq_dec (inv_status i) ZX_OK) as [Heq|Hne].
  - destruct Hok as [Ha Ho]; [congruence|]. rewrite Ha, Ho. reflexivity.
  - destruct Herr as [Ha Ho]; [congruence|]. rewrite Ha, Ho. cbn. lia.
  - intros Hc. apply Z.eqb_neq in Hc. contradiction.
  - intros _. destruct Herr as [Ha _]; [congruence|]. now rewrite Ha.
Qed.

End Bounded.

Lemma logged_fn_call {World : Type} (fn : primitive World)
    (buf off cap : Z) (wl : World * list backend_call) :
  logged_fn fn buf off cap wl
  = (fst (fn buf off cap (fst wl)),
     (snd (fn buf off cap (fst wl)), snd wl ++ [mk_call buf off cap])).
Proof.
  unfold logged_fn. now destruct (fn buf off cap (fst wl)) as [st w].
Qed.

(** *** Concrete runs

    A region of three pages of 4096 bytes, the seek offset ten bytes into
    the last page. *)

Example read_within_last_page :
  zxio_vmo_do_vector (logged_fn (sample_fn 12288)) 0 12288
    [mk_iovec 1000 100] (mk_state 8202 (0, []))
  = ((ZX_OK, Some 100), mk_state 8302 (100, [mk_call 1000 8202 100])).
Proof. vm_compute. reflexivity. Qed.

Example read_across_end :
  zxio_vmo_do_vector (logged_fn (sample_fn 12288)) 0 12288
    [mk_iovec 1000 4000; mk_iovec 2000 0; mk_iovec 3000 4000]
    (mk_state 8202 (0, []))
  = ((ZX_OK, Some 4086),
     mk_state 12288
       (4086, [mk_call 1000 8202 4000; mk_call 3000 12202 86])).
Proof. vm_compute. reflexivity. Qed.

Example read_at_end :
  zxio_vmo_do_vector (logged_fn (sample_fn 12289)) 0 12288
    [mk_iovec 1000 100] (mk_state 12288 (0, []))
  = ((ZX_OK, Some 0), mk_state 12288 (0, [mk_call 1000 12288 0])).
Proof. vm_compute. reflexivity. Qed.

Example read_past_end :
  zxio_vmo_do_vector (logged_fn (sample_fn 12288)) 0 12288
    [mk_iovec 1000 100] (mk_state 12289 (0, []))
  = ((ZX_ERR_INVALID_ARGS, None), mk_state 12289 (0, [])).
Proof. vm_compute. reflexivity. Qed.

Example failure_after_progress :
  zxio_vmo_do_vector (logged_fn (sample_fn 5)) 0 10
    [mk_iovec 1000 6; mk_iovec 2000 2] (mk_state 0 (0, []))
  = ((-14, Some 6),
     mk_state 6 (6, [mk_call 1000 0 6; mk_call 2000 6 2])).
Proof. vm_compute. reflexivity. Qed.

(** C1: when the seek offset is beyond the length of the resource,
    [zxio_vmo_do_vector] answers [ZX_ERR_INVALID_ARGS], which is a
    failure, stores nothing through [out_actual], and leaves the seek
    offset and everything the primitive could touch as they were; in
    particular the primitive's own record of calls stays as it was, so
    the primitive has not been called. *)
Theorem offset_past_length_rejected {World : Type} (fn : primitive World)
    (start length : Z) (vector : list zx_iovec_t)
    (s : file_state World) (calls : list backend_call) :
  st_offset s > length ->
  zxio_vmo_do_vector fn start length vector s
  = ((ZX_ERR_INVALID_ARGS, None), s)
  /\ ZX_ERR_INVALID_ARGS <> ZX_OK
  /\ zxio_vmo_do_vector (logged_fn fn) start length vector
       (mk_state (st_offset s) (st_world s, calls))
     = ((ZX_ERR_INVALID_ARGS, None),
        mk_state (st_offset s) (st_world s, calls)).
Proof.
  intros Hgt. unfold zxio_vmo_do_vector. cbn [st_offset].
  destruct (Z.gtb_spec (st_offset s) length) as [_|Hle]; [|lia].
  repeat split. discriminate.
Qed.

Lemma offset_past_length_rejected_witness :
  zxio_vmo_do_vector (sample_fn 100) 0 10
    [mk_iovec 1000 4; mk_iovec 2000 8] (mk_state 11 0)
  = ((ZX_ERR_INVALID_ARGS, None), mk_state 11 0).
Proof.
  apply (offset_past_length_rejected (sample_fn 100) 0 10
           [mk_iovec 1000 4; mk_iovec 2000 8] (mk_state 11 0) []).
  cbn [st_offset]. lia.
Defined.

(** C3: a call of [zxio_vmo_do_vector] that starts with the seek offset
    within the resource ends, whatever its status, with the seek offset
    within the resource. *)
Theorem offset_stays_within_length {World : Type} (fn : primitive World)
    (start length : Z) (vector : list zx_iovec_t) (s : file_state World) :
  is_size_t length -> Forall iovec_ok vector ->
  0 <= st_offset s <= length ->
  0 <= st_offset (snd (zxio_vmo_do_vector fn start length vector s))
    <= length.
Proof.
  intros Hlen Hvec Hs. rewrite vmo_run by assumption. cbn [snd].
  now apply run_invocations.
Qed.

Lemma offset_stays_within_length_witness :
  0 <= st_offset (snd (zxio_vmo_do_vector (sample_fn 100) 0 10
                         [mk_iovec 1000 4; mk_iovec 2000 8] (mk_state 3 0)))
    <= 10.
Proof.
  apply (offset_stays_within_length (sample_fn 100) 0 10
           [mk_iovec 1000 4; mk_iovec 2000 8] (mk_state 3 0)).
  - unfold is_size_t, size_modulus. lia.
  - repeat constructor; unfold iovec_ok, is_size_t, size_modulus;
      cbn [capacity]; lia.
  - cbn [st_offset]. lia.
Defined.

(** C2: in a call of [zxio_vmo_do_vector] that starts with the seek
    offset within the resource, each call of the lambda finds the seek
    offset within the resource and calls the primitive exactly once, with
    the capacity [min(requested, length - offset)] for the offset current
    at that entry; the calls of the primitive made by the whole run are
    these, in order, and no others.  The same holds of a single call of
    the lambda in any state with the seek offset within the resource. *)
Theorem clipped_capacity_passed {World : Type} (fn : primitive World)
    (start length : Z) (vector : list zx_iovec_t)
    (s : file_state (World * list backend_call)) :
  is_size_t length -> Forall iovec_ok vector ->
  0 <= st_offset s <= length ->
  let run := zxio_vmo_do_vector (logged_fn fn) start length vector s in
  let log := invocations vector (vmo_closure (logged_fn fn) start length) s in
  Forall (fun i =>
            0 <= st_offset (inv_before i) <= length
            /\ exists c,
                 backend_calls (inv_after i)
                 = backend_calls (inv_before i) ++ [c]
                 /\ c = clipped_call start length i
                 /\ call_capacity c
                    = Z.min (inv_capacity i)
                        (length - st_offset (inv_before i)))
         log
  /\ chained s log (snd run)
  /\ backend_calls (snd run)
     = backend_calls s ++ map (clipped_call start length) log
  /\ (forall buf cap,
        0 <= cap ->
        backend_calls (snd (vmo_closure (logged_fn fn) start length buf cap s))
        = backend_calls s
          ++ [mk_call buf (wrap (start + st_offset s))
                (Z.min cap (length - st_offset s))]).
Proof.
  intros Hlen Hvec Hs. cbv zeta. rewrite vmo_run by assumption. cbn [snd].
  assert (Hone : forall buf cap,
    0 <= cap ->
    backend_calls (snd (vmo_closure (logged_fn fn) start length buf cap s))
    = backend_calls s
      ++ [mk_call buf (wrap (start + st_offset s))
            (Z.min cap (length - st_offset s))]).
  { intros buf cap Hcap.
    rewrite (closure_step (logged_fn fn) start length Hlen buf cap s Hs Hcap).
    cbv zeta. rewrite logged_fn_call. cbn [fst snd]. unfold backend_calls.
    match goal with |- context [if ?b then _ else _] => now destruct b end. }
  destruct (run_invocations (logged_fn fn) start length Hlen vector s Hs Hvec)
    as [Hall _].
  assert (Hcalls :
    Forall (fun i => backend_calls (inv_after i)
                     = backend_calls (inv_before i)
                       ++ [clipped_call start length i])
      (invocations vector (vmo_closure (logged_fn fn) start length) s)).
  { eapply Forall_impl; [|exact Hall]. intros i (Hb & Hcap & Hf).
    destruct (invocation_step (logged_fn fn) start length Hlen i Hb Hcap Hf)
      as (_ & Hw & _).
    unfold backend_calls. rewrite Hw, logged_fn_call. reflexivity. }
  split; [|split; [|split]].
  - rewrite Forall_forall in *. intros i Hi.
    destruct (Hall i Hi) as (Hb & _). split; [exact Hb|].
    exists (clipped_call start length i).
    split; [now apply Hcalls|]. now split.
  - apply run_chained.
  - apply (chained_appends backend_calls (clipped_call start length)
             _ _ _ (run_chained _ _ _ vector s) Hcalls).
  - exact Hone.
Qed.

Lemma clipped_capacity_passed_witness :
  backend_calls
    (snd (zxio_vmo_do_vector (logged_fn (sample_fn 100)) 0 10
            [mk_iovec 1000 4; mk_iovec 2000 0; mk_iovec 3000 8]
            (mk_state 3 (0, []))))
  = [mk_call 1000 3 4; mk_call 3000 7 3].
Proof.
  refine (eq_trans
    (proj1 (proj2 (proj2
      (clipped_capacity_passed (sample_fn 100) 0 10
         [mk_iovec 1000 4; mk_iovec 2000 0; mk_iovec 3000 8]
         (mk_state 3 (0, [])) _ _ _)))) _).
  - unfold is_size_t, size_modulus. lia.
  - repeat constructor; unfold iovec_ok, is_size_t, size_modulus;
      cbn [capacity]; lia.
  - cbn [st_offset]. lia.
  - vm_compute. reflexivity.
Defined.

(** C4: in a call of [zxio_vmo_do_vector] that starts with the seek
    offset within the resource, the status of each call of the lambda is
    the status of its call of the primitive; when that status is [ZX_OK]
    the lambda reports some number of bytes through [out_actual] and the
    seek offset has advanced by exactly that number; otherwise the seek
    offset has not moved.  Over the whole run the seek offset advances by
    the total stored through [out_actual]. *)
Theorem offset_advances_by_moved {World : Type} (fn : primitive World)
    (start length : Z) (vector : list zx_iovec_t) (s : file_state World) :
  is_size_t length -> Forall iovec_ok vector ->
  0 <= st_offset s <= length ->
  let run := zxio_vmo_do_vector fn start length vector s in
  let log := invocations vector (vmo_closure fn start length) s in
  Forall (fun i =>
            let o := st_offset (inv_before i) in
            let r := fn (inv_buffer i) (wrap (start + o))
                       (Z.min (inv_capacity i) (length - o))
                       (st_world (inv_before i)) in
            inv_status i = fst r
            /\ (fst r = ZX_OK ->
                exists n, inv_actual i = Some n
                          /\ st_offset (inv_after i) = o + n)
            /\ (fst r <> ZX_OK -> st_offset (inv_after i) = o))
         log
  /\ chained s log (snd run)
  /\ exists total,
       snd (fst run) = Some total
       /\ st_offset (snd run) = st_offset s + total.
Proof.
  intros Hlen Hvec Hs. cbv zeta. rewrite vmo_run by assumption.
  cbn [fst snd].
  destruct (run_invocations fn start length Hlen vector s Hs Hvec)
    as [Hall _].
  destruct (run_offsets fn start length Hlen vector s Hs Hvec)
    as [Hadv Hzero].
  split; [|split].
  - eapply Forall_impl; [|exact Hall]. intros i (Hb & Hcap & Hf).
    destruct (invocation_step fn start length Hlen i Hb Hcap Hf)
      as (Hst & _ & Hok & Herr).
    split; [exact Hst|]. split.
    + intros H. destruct (Hok H) as [Ha Ho]. eauto.
    + intros H. now destruct (Herr H).
  - apply run_chained.
  - eexists. split; [reflexivity|].
    rewrite run_total, (sum_moved_completed _ Hzero).
    apply (chained_advances st_offset _ _ _ (run_chained _ _ _ vector s) Hadv).
Qed.

Lemma offset_advances_by_moved_witness :
  exists total,
    snd (fst (zxio_vmo_do_vector (sample_fn 100) 0 10
                [mk_iovec 1000 4; mk_iovec 2000 8] (mk_state 3 0)))
    = Some total
    /\ st_offset (snd (zxio_vmo_do_vector (sample_fn 100) 0 10
                         [mk_iovec 1000 4; mk_iovec 2000 8] (mk_state 3 0)))
       = 3 + total.
Proof.
  refine (proj2 (proj2
    (offset_advances_by_moved (sample_fn 100) 0 10
       [mk_iovec 1000 4; mk_iovec 2000 8] (mk_state 3 0) _ _ _))).
  - unfold is_size_t, size_modulus. lia.
  - repeat constructor; unfold iovec_ok, is_size_t, size_modulus;
      cbn [capacity]; lia.
  - cbn [st_offset]. lia.
Defined.

(** C9: in a call of [zxio_vmo_do_vector] that starts with the seek
    offset within the resource, a call of the lambda whose primitive
    fails leaves the seek offset where it was before that call, which is
    the starting offset plus the bytes moved by the calls before it, all
    of which completed; the run ends there with that error, so this is
    the seek offset the caller finds. *)
Theorem failed_entry_keeps_offset {World : Type} (fn : primitive World)
    (start length : Z) (vector : list zx_iovec_t) (s : file_state World) :
  is_size_t length -> Forall iovec_ok vector ->
  0 <= st_offset s <= length ->
  let run := zxio_vmo_do_vector fn start length vector s in
  let log := invocations vector (vmo_closure fn start length) s in
  forall earlier failing later,
    log = earlier ++ failing :: later ->
    inv_status failing <> ZX_OK ->
    inv_status failing
    = fst (fn (inv_buffer failing)
             (wrap (start + st_offset (inv_before failing)))
             (Z.min (inv_capacity failing)
                (length - st_offset (inv_before failing)))
             (st_world (inv_before failing)))
    /\ st_offset (inv_after failing) = st_offset (inv_before failing)
    /\ st_offset (inv_before failing) = st_offset s + sum_moved earlier
    /\ Forall (fun i => completed i = true) earlier
    /\ later = []
    /\ fst (fst run) = inv_status failing
    /\ st_offset (snd run) = st_offset s + sum_moved earlier.
Proof.
  intros Hlen Hvec Hs. cbv zeta. intros earlier failing later Hlog Hfail.
  rewrite vmo_run by assumption. cbn [fst snd].
  destruct (run_invocations fn start length Hlen vector s Hs Hvec)
    as [Hall _].
  destruct (run_offsets fn start length Hlen vector s Hs Hvec)
    as [Hadv _].
  pose proof (run_chained fn start length vector s) as Hch.
  destruct (run_outline (vmo_closure fn start length) vector s)
    as (rest & Hshape).
  rewrite Hlog in Hall, Hadv, Hch, Hshape.
  assert (Hnot : completed failing = false)
    by (unfold completed; now apply Z.eqb_neq).
  assert (Hlater : later = []).
  { destruct later as [|x later]; [reflexivity|].
    destruct (shape_inner _ _ _ Hshape earlier failing (x :: later) eq_refl)
      as [Hc _]; [discriminate | congruence]. }
  subst later.
  apply Forall_app in Hall. destruct Hall as [_ Hall].
  inversion Hall as [|i l (Hb & Hcap & Hf) _]; subst.
  destruct (invocation_step fn start length Hlen failing Hb Hcap Hf)
    as (Hst & _ & _ & Herr).
  destruct Herr as [_ Hkeep]; [congruence|].
  apply Forall_app in Hadv. destruct Hadv as [Hadv _].
  destruct (chained_app _ _ _ _ Hch) as (m & Hpre & Hpost).
  cbn [chained] in Hpost. destruct Hpost as [Hm Hend].
  pose proof (chained_advances st_offset _ _ _ Hpre Hadv) as Hsum.
  rewrite <- Hm in Hsum.
  split; [exact Hst|]. split; [exact Hkeep|]. split; [exact Hsum|].
  split.
  { eapply Forall_impl; [|exact (shape_earlier _ _ _ Hshape _ _ eq_refl)].
    now intros i [Hc _]. }
  split; [reflexivity|]. split.
  - now apply (shape_last _ _ _ Hshape earlier failing eq_refl).
  - rewrite <- Hend. lia.
Qed.

Lemma failed_entry_keeps_offset_witness :
  st_offset (snd (zxio_vmo_do_vector (sample_fn 5) 0 10
                    [mk_iovec 1000 6; mk_iovec 2000 2] (mk_state 0 0)))
  = 0 + 6.
Proof.
  refine (proj2 (proj2 (proj2 (proj2 (proj2 (proj2
    (failed_entry_keeps_offset (sample_fn 5) 0 10
       [mk_iovec 1000 6; mk_iovec 2000 2] (mk_state 0 0) _ _ _
       [mk_invocation 1000 6 (mk_state 0 0) ZX_OK (Some 6) (mk_state 6 6)]
       (mk_invocation 2000 2 (mk_state 6 6) (-14) None (mk_state 6 6))
       [] _ _))))))).
  - unfold is_size_t, size_modulus. lia.
  - repeat constructor; unfold iovec_ok, is_size_t, size_modulus;
      cbn [capacity]; lia.
  - cbn [st_offset]. lia.
  - vm_compute. reflexivity.
  - cbn [inv_status]. discriminate.
Defined.

(** C10: a call of the lambda with the seek offset within the resource
    calls the primitive exactly once, with the clipped capacity; when the
    primitive answers [ZX_OK], the lambda answers [ZX_OK] and reports
    exactly the clipped capacity as moved, whatever the primitive really
    did.  When the seek offset equals the length, the clipped capacity is
    zero: the primitive is still called, with capacity zero, and on its
    success the lambda reports zero bytes and leaves the seek offset at
    the length; a call of [zxio_vmo_do_vector] whose first entry is not
    of length zero then ends with success and a total of zero after that
    single call of the primitive. *)
Theorem success_reports_clipped_capacity {World : Type}
    (fn : primitive World) (start length buf cap : Z)
    (s : file_state (World * list backend_call)) :
  is_size_t length -> 0 <= cap ->
  0 <= st_offset s <= length ->
  let o := st_offset s in
  let clipped := Z.min cap (length - o) in
  let r := fn buf (wrap (start + o)) clipped (fst (st_world s)) in
  let out := vmo_closure (logged_fn fn) start length buf cap s in
  backend_calls (snd out)
  = backend_calls s ++ [mk_call buf (wrap (start + o)) clipped]
  /\ (fst r = ZX_OK ->
      fst out = (ZX_OK, Some clipped)
      /\ st_offset (snd out) = o + clipped)
  /\ (o = length ->
      clipped = 0
      /\ (fst r = ZX_OK ->
          fst out = (ZX_OK, Some 0)
          /\ st_offset (snd out) = length
          /\ (cap <> 0 ->
              forall rest,
                zxio_vmo_do_vector (logged_fn fn) start length
                  (mk_iovec buf cap :: rest) s
                = ((ZX_OK, Some 0),
                   mk_state length
                     (snd r,
                      backend_calls s
                      ++ [mk_call buf (wrap (start + length)) 0]))))).
Proof.
  intros Hlen Hcap Hs. cbv zeta.
  pose proof (closure_step (logged_fn fn) start length Hlen buf cap s Hs Hcap)
    as Hstep.
  cbv zeta in Hstep. rewrite logged_fn_call in Hstep. cbn [fst snd] in Hstep.
  split; [|split].
  - rewrite Hstep. unfold backend_calls.
    match goal with |- context [if ?b then _ else _] => now destruct b end.
  - intros Hok. rewrite Hstep, Hok. cbn. now split.
  - intros Hend.
    assert (Hclip : Z.min cap (length - st_offset s) = 0) by lia.
    split; [exact Hclip|]. intros Hok.
    rewrite Hclip in Hstep, Hok. rewrite Hok in Hstep. cbn in Hstep.
    split; [now rewrite Hstep|]. split; [rewrite Hstep; cbn; lia|].
    intros Hne rest. rewrite vmo_run by assumption.
    unfold zxio_do_vector. cbn [do_vector_loop capacity buffer].
    destruct (Z.eqb_spec cap 0) as [|_]; [contradiction|].
    rewrite Hstep. cbn [negb Z.eqb ZX_OK bytes_moved].
    destruct (Z.ltb_spec 0 cap) as [_|Hle]; [|lia].
    cbn [fst snd]. rewrite Hclip, Hend, !Z.add_0_r. reflexivity.
Qed.

Lemma success_reports_clipped_capacity_witness :
  zxio_vmo_do_vector (logged_fn (sample_fn 100)) 0 10
    [mk_iovec 1000 4; mk_iovec 2000 8] (mk_state 10 (0, []))
  = ((ZX_OK, Some 0), mk_state 10 (0, [mk_call 1000 10 0])).
Proof.
  assert (Hlen : is_size_t 10) by (unfold is_size_t, size_modulus; lia).
  assert (Hcap : 0 <= 4) by lia.
  assert (Hs : 0 <= 10 <= 10) by lia.
  destruct (success_reports_clipped_capacity (sample_fn 100) 0 10 1000 4
              (mk_state 10 (0, [])) Hlen Hcap Hs) as (_ & _ & Hend).
  destruct (Hend eq_refl) as (_ & Hok).
  destruct (Hok eq_refl) as (_ & _ & Hrun).
  assert (Hne : 4 <> 0) by discriminate.
  exact (Hrun Hne [mk_iovec 2000 8]).
Defined.

End VmoFacts.

(** ** The ops-table adaptor *)

Module DispatchFacts.
Import Dispatch.

(** C8: for every backend class [T] and member operation [Op], the
    adapted function [From] applied to a header pointer and the remaining
    arguments gives the result of [Op] on the header pointer reinterpreted
    as a pointer to [T], with the remaining arguments passed on as they
    are: the status and the memory left behind agree for all inputs, and
    the object addressed is the one at the header's address. *)
Theorem From_refines_spec (zxio_t T Rest Heap : Type)
    (Op : member_fn T Rest Heap) (io : ptr zxio_t) (args : Rest)
    (h : Heap) :
  From zxio_t T Rest Heap Op (io, args) h
  = From_spec zxio_t T Rest Heap Op io args h
  /\ From zxio_t T Rest Heap Op (io, args) h
     = Op (mk_ptr (address io)) args h.
Proof.
  unfold From, From_spec, FromImpl, mem_fn, reinterpret_cast. cbn [fst snd].
  now split.
Qed.

End DispatchFacts.

(** ** Ranges touched by the bounded adapter *)

Module VmoRangeFacts.
Import Vector Vmo VectorFacts VmoFacts VmoRange.

Lemma total_requested_app (v1 v2 : list zx_iovec_t) :
  total_requested (v1 ++ v2) = total_requested v1 + total_requested v2.
Proof.
  unfold total_requested. induction v1 as [|e v1 IH]; cbn [app map fold_right].
  - lia.
  - rewrite IH. lia.
Qed.

Lemma total_requested_nonneg (vector : list zx_iovec_t) :
  Forall iovec_ok vector -> 0 <= total_requested vector.
Proof.
  unfold total_requested.
  induction 1 as [|e v He _ IH]; cbn [map fold_right]; [lia|].
  unfold iovec_ok, is_size_t in He. lia.
Qed.

Lemma total_requested_nonempty (vector : list zx_iovec_t) :
  total_requested (filter nonempty vector) = total_requested vector.
Proof.
  unfold total_requested.
  induction vector as [|e v IH]; cbn [filter map fold_right]; [reflexivity|].
  unfold nonempty at 1. destruct (Z.eqb_spec (capacity e) 0) as [Hz|Hz];
    cbn [negb map fold_right]; lia.
Qed.

(** The calls of a run are made for a leading part of the entries of
    nonzero length. *)
Lemma run_prefix {S : Type} (fn : transfer S) (vector : list zx_iovec_t)
    (s : S) :
  exists rest,
    filter nonempty vector = map requested (invocations vector fn s) ++ rest.
Proof.
  rewrite invocations_trace.
  destruct (loop_shape fn vector 0 s) as (rest & Hnz & _).
  now exists rest.
Qed.

Section Bounded.
Context {World : Type}.
Variable fn : primitive World.
Variables start length : Z.
Hypothesis length_is_size_t : is_size_t length.

Local Abbreviation closure := (vmo_closure fn start length).

(** A call of the lambda moves no more than it was asked for, and no
    more than what is left of the resource. *)
Lemma invocation_moved (i : invocation (file_state World)) :
  in_bounds length (inv_before i) -> 0 <= inv_capacity i ->
  faithful closure i ->
  0 <= moved i <= inv_capacity i
  /\ moved i <= length - st_offset (inv_before i).
Proof.
  intros Hb Hcap Hf.
  destruct (invocation_step fn start length length_is_size_t i Hb Hcap Hf)
    as (_ & _ & Hok & Herr).
  unfold in_bounds in Hb. unfold moved.
  destruct (Z.eq_dec
              (fst (fn (inv_buffer i)
                      (wrap (start + st_offset (inv_before i)))
                      (Z.min (inv_capacity i)
                         (length - st_offset (inv_before i)))
                      (st_world (inv_before i)))) ZX_OK) as [Heq|Hne].
  - destruct (Hok Heq) as [Ha _]. rewrite Ha. cbn [bytes_moved]. lia.
  - destruct (Herr Hne) as [Ha _]. rewrite Ha. cbn [bytes_moved]. lia.
Qed.

Lemma sum_moved_le_requested (l : list (invocation (file_state World))) :
  Forall (fun i => 0 <= moved i <= inv_capacity i) l ->
  0 <= sum_moved l <= total_requested (map requested l).
Proof.
  unfold sum_moved, total_requested.
  induction 1 as [|i l Hi _ IH]; cbn [map fold_right requested capacity]; lia.
Qed.

End Bounded.

(** X1: a call of [zxio_vmo_do_vector] that starts within the resource
    stores a total through [out_actual] that is never negative, never
    more than the bytes left between the seek offset and the end of the
    resource, and never more than the bytes the descriptor asks for. *)
Theorem total_within_request_and_resource {World : Type}
    (fn : primitive World) (start length : Z) (vector : list zx_iovec_t)
    (s : file_state World) :
  is_size_t length -> Forall iovec_ok vector ->
  0 <= st_offset s <= length ->
  exists total,
    snd (fst (zxio_vmo_do_vector fn start length vector s)) = Some total
    /\ 0 <= total
    /\ total <= length - st_offset s
    /\ total <= total_requested vector.
Proof.
  intros Hlen Hvec Hs. rewrite vmo_run by assumption. cbn [fst snd].
  eexists. split; [reflexivity|].
  destruct (run_invocations fn start length Hlen vector s Hs Hvec)
    as [Hall Hfinal].
  destruct (run_offsets fn start length Hlen vector s Hs Hvec)
    as [Hadv Hzero].
  pose proof (chained_advances st_offset _ _ _
                (run_chained fn start length vector s) Hadv) as Hsum.
  rewrite run_total, (sum_moved_completed _ Hzero).
  assert (Hmoved : Forall (fun i => 0 <= moved i <= inv_capacity i)
                     (invocations vector (vmo_closure fn start length) s)).
  { eapply Forall_impl; [|exact Hall]. intros i (Hb & Hcap & Hf).
    now apply (invocation_moved fn start length Hlen i Hb Hcap Hf). }
  pose proof (sum_moved_le_requested _ Hmoved) as Hreq.
  destruct (run_prefix (vmo_closure fn start length) vector s)
    as (rest & Hprefix).
  assert (Hrest : 0 <= total_requested rest).
  { apply total_requested_nonneg.
    assert (Hnz : Forall iovec_ok (filter nonempty vector)).
    { apply Forall_forall. intros e He. apply filter_In in He.
      rewrite Forall_forall in Hvec. now apply Hvec. }
    rewrite Hprefix in Hnz. now apply Forall_app in Hnz. }
  pose proof (total_requested_nonempty vector) as Hnonempty.
  rewrite Hprefix, total_requested_app in Hnonempty.
  unfold in_bounds in Hfinal. lia.
Qed.

Lemma total_within_request_and_resource_witness :
  exists total,
    snd (fst (zxio_vmo_do_vector (sample_fn 100) 0 10
                [mk_iovec 1000 4; mk_iovec 2000 8] (mk_state 3 0)))
    = Some total
    /\ 0 <= total /\ total <= 10 - 3 /\ total <= 4 + (8 + 0).
Proof.
  apply (total_within_request_and_resource (sample_fn 100) 0 10
           [mk_iovec 1000 4; mk_iovec 2000 8] (mk_state 3 0)).
  - unfold is_size_t, size_modulus. lia.
  - repeat constructor; unfold iovec_ok, is_size_t, size_modulus;
      cbn [capacity]; lia.
  - cbn [st_offset]. lia.
Defined.

(** The calls of the primitive made along a chain of calls of the lambda
    with the outline of a run form one run of bytes. *)
Lemma adjacent_of_shape {World : Type} (fn : primitive World)
    (start length : Z) (log : list (invocation (file_state World)))
    (rest : list zx_iovec_t) (st : zx_status_t) :
  is_size_t length ->
  run_shape log rest st ->
  forall s s',
    chained s log s' ->
    Forall (fun i => in_bounds length (inv_before i)
                     /\ 0 <= inv_capacity i
                     /\ faithful (vmo_closure fn start length) i) log ->
    adjacent start length (st_offset s)
      (map (clipped_call start length) log).
Proof.
  intros Hlen Hshape.
  induction Hshape as [|i rest Herr|i rest Hc Hs|i l rest st Hc Hs Hrun IH];
    intros s s' Hch Hall; cbn [map adjacent]; [exact I| | |];
    cbn [chained] in Hch; destruct Hch as [Hb Hch];
    inversion Hall as [|i' l' (Hin & Hcap & Hf) Hl]; subst;
    unfold in_bounds in Hin; unfold clipped_call at 1 2 3;
    cbn [call_offset call_capacity].
  - repeat split; lia.
  - repeat split; lia.
  - split; [reflexivity|]. split; [lia|].
    destruct (invocation_step fn start length Hlen i Hin Hcap Hf)
      as (Hst & _ & Hok & _).
    unfold completed in Hc. apply Z.eqb_eq in Hc.
    destruct Hok as [_ Ho]; [congruence|].
    unfold clipped_call at 1. cbn [call_capacity]. rewrite <- Ho.
    now apply (IH (inv_after i) s').
Qed.

(** The calls of the primitive made by a run, read off its record. *)
Lemma run_backend_calls {World : Type} (fn : primitive World)
    (start length : Z) (vector : list zx_iovec_t)
    (s : file_state (World * list backend_call)) :
  is_size_t length -> Forall iovec_ok vector -> in_bounds length s ->
  backend_calls (snd (zxio_vmo_do_vector (logged_fn fn) start length vector s))
  = backend_calls s
    ++ map (clipped_call start length)
         (invocations vector (vmo_closure (logged_fn fn) start length) s).
Proof.
  intros Hlen Hvec Hs. rewrite vmo_run by assumption. cbn [snd].
  destruct (run_invocations (logged_fn fn) start length Hlen vector s Hs Hvec)
    as [Hall _].
  apply (chained_appends backend_calls (clipped_call start length)
           _ _ _ (run_chained _ _ _ vector s)).
  eapply Forall_impl; [|exact Hall]. intros i (Hb & Hcap & Hf).
  destruct (invocation_step (logged_fn fn) start length Hlen i Hb Hcap Hf)
    as (_ & Hw & _).
  unfold backend_calls. rewrite Hw, logged_fn_call. reflexivity.
Qed.

(** X2: the calls of the primitive made by a call of
    [zxio_vmo_do_vector] that starts within the resource form one run of
    bytes: the first call starts at the seek offset, every call stays
    within the resource, and every next call starts exactly where the
    one before it stopped. *)
Theorem primitive_calls_adjacent {World : Type} (fn : primitive World)
    (start length : Z) (vector : list zx_iovec_t)
    (s : file_state (World * list backend_call)) :
  is_size_t length -> Forall iovec_ok vector ->
  0 <= st_offset s <= length ->
  exists calls,
    backend_calls
      (snd (zxio_vmo_do_vector (logged_fn fn) start length vector s))
    = backend_calls s ++ calls
    /\ adjacent start length (st_offset s) calls.
Proof.
  intros Hlen Hvec Hs.
  exists (map (clipped_call start length)
            (invocations vector (vmo_closure (logged_fn fn) start length) s)).
  split; [now apply run_backend_calls|].
  destruct (run_invocations (logged_fn fn) start length Hlen vector s Hs Hvec)
    as [Hall _].
  destruct (run_outline (vmo_closure (logged_fn fn) start length) vector s)
    as (rest & Hshape).
  apply (adjacent_of_shape (logged_fn fn) start length _ _ _ Hlen Hshape
           s _ (run_chained _ _ _ vector s) Hall).
Qed.

Lemma primitive_calls_adjacent_witness :
  exists calls,
    backend_calls
      (snd (zxio_vmo_do_vector (logged_fn (sample_fn 100)) 0 10
              [mk_iovec 1000 4; mk_iovec 2000 0; mk_iovec 3000 8]
              (mk_state 3 (0, []))))
    = [] ++ calls
    /\ adjacent 0 10 3 calls.
Proof.
  apply (primitive_calls_adjacent (sample_fn 100) 0 10
           [mk_iovec 1000 4; mk_iovec 2000 0; mk_iovec 3000 8]
           (mk_state 3 (0, []))).
  - unfold is_size_t, size_modulus. lia.
  - repeat constructor; unfold iovec_ok, is_size_t, size_modulus;
      cbn [capacity]; lia.
  - cbn [st_offset]. lia.
Defined.

(** When the window [start, start + length) itself fits in [size_t], a
    run of bytes in the sense of [adjacent] lies inside the window. *)
Lemma adjacent_in_window (start length : Z) (calls : list backend_call) :
  0 <= start -> is_size_t (start + length) ->
  forall o,
    0 <= o <= length ->
    adjacent start length o calls ->
    Forall (fun c => start + o <= call_offset c
                     /\ 0 <= call_capacity c
                     /\ call_offset c + call_capacity c <= start + length)
           calls.
Proof.
  intros Hstart Hfit.
  induction calls as [|c calls IH]; intros o Ho Hadj; [constructor|].
  cbn [adjacent] in Hadj. destruct Hadj as (Hoff & Hcap & Hrest).
  assert (Hw : wrap (start + o) = start + o)
    by (apply wrap_small; unfold is_size_t in *; lia).
  constructor.
  - rewrite Hoff, Hw. lia.
  - eapply Forall_impl; [|apply (IH (o + call_capacity c)); [lia|exact Hrest]].
    cbn beta. intros c' (H1 & H2 & H3). repeat split; lia.
Qed.

(** X3: when the window [start, start + length) does not wrap around
    the range of [size_t], every call of the primitive made by a call of
    [zxio_vmo_do_vector] that starts within the resource asks for bytes
    of the window only: it starts at or after the seek position
    [start + offset], and ends at or before [start + length]. *)
Theorem primitive_calls_in_window {World : Type} (fn : primitive World)
    (start length : Z) (vector : list zx_iovec_t)
    (s : file_state (World * list backend_call)) :
  0 <= start -> is_size_t (start + length) ->
  is_size_t length -> Forall iovec_ok vector ->
  0 <= st_offset s <= length ->
  exists calls,
    backend_calls
      (snd (zxio_vmo_do_vector (logged_fn fn) start length vector s))
    = backend_calls s ++ calls
    /\ Forall (fun c => start + st_offset s <= call_offset c
                        /\ 0 <= call_capacity c
                        /\ call_offset c + call_capacity c <= start + length)
              calls.
Proof.
  intros Hstart Hfit Hlen Hvec Hs.
  exists (map (clipped_call start length)
            (invocations vector (vmo_closure (logged_fn fn) start length) s)).
  split; [now apply run_backend_calls|].
  destruct (run_invocations (logged_fn fn) start length Hlen vector s Hs Hvec)
    as [Hall _].
  destruct (run_outline (vmo_closure (logged_fn fn) start length) vector s)
    as (rest & Hshape).
  apply (adjacent_in_window start length _ Hstart Hfit (st_offset s) Hs).
  apply (adjacent_of_shape (logged_fn fn) start length _ _ _ Hlen Hshape
           s _ (run_chained _ _ _ vector s) Hall).
Qed.

Lemma primitive_calls_in_window_witness :
  exists calls,
    backend_calls
      (snd (zxio_vmo_do_vector (logged_fn (sample_fn 100)) 50 10
              [mk_iovec 1000 4; mk_iovec 3000 8] (mk_state 3 (0, []))))
    = [] ++ calls
    /\ Forall (fun c => 50 + 3 <= call_offset c
                        /\ 0 <= call_capacity c
                        /\ call_offset c + call_capacity c <= 50 + 10)
              calls.
Proof.
  apply (primitive_calls_in_window (sample_fn 100) 50 10
           [mk_iovec 1000 4; mk_iovec 3000 8] (mk_state 3 (0, []))).
  - lia.
  - unfold is_size_t, size_modulus. lia.
  - unfold is_size_t, size_modulus. lia.
  - repeat constructor; unfold iovec_ok, is_size_t, size_modulus;
      cbn [capacity]; lia.
  - cbn [st_offset]. lia.
Defined.

(** A run that does not end in success ended on a failed call. *)
Lemma shape_failure {S : Type} (l : list (invocation S))
    (rest : list zx_iovec_t) (st : zx_status_t) :
  run_shape l rest st -> st <> ZX_OK ->
  exists earlier last, l = earlier ++ [last] /\ inv_status last = st.
Proof.
  induction 1 as [|i rest Herr|i rest Hc Hs|i l rest st Hc Hs Hrun IH];
    intros Hne; try congruence.
  - exists [], i. now split.
  - destruct (IH Hne) as (earlier & last & -> & Hst).
    exists (i :: earlier), last. now split.
Qed.

(** X4: [zxio_vmo_do_vector] has one failure of its own, the guard on
    the seek offset.  When a call that starts within the resource does
    not answer [ZX_OK], its status is the status the primitive gave on
    the last call made, with the arguments the lambda passed to it. *)
Theorem failure_comes_from_primitive {World : Type} (fn : primitive World)
    (start length : Z) (vector : list zx_iovec_t) (s : file_state World) :
  is_size_t length -> Forall iovec_ok vector ->
  0 <= st_offset s <= length ->
  fst (fst (zxio_vmo_do_vector fn start length vector s)) <> ZX_OK ->
  exists earlier last,
    invocations vector (vmo_closure fn start length) s = earlier ++ [last]
    /\ fst (fst (zxio_vmo_do_vector fn start length vector s))
       = fst (fn (inv_buffer last)
                (wrap (start + st_offset (inv_before last)))
                (Z.min (inv_capacity last)
                   (length - st_offset (inv_before last)))
                (st_world (inv_before last))).
Proof.
  intros Hlen Hvec Hs. rewrite vmo_run by assumption. cbn [fst].
  intros Hne.
  destruct (run_outline (vmo_closure fn start length) vector s)
    as (rest & Hshape).
  destruct (shape_failure _ _ _ Hshape Hne) as (earlier & last & Hlog & Hst).
  exists earlier, last. split; [exact Hlog|].
  destruct (run_invocations fn start length Hlen vector s Hs Hvec)
    as [Hall _].
  rewrite Hlog in Hall. apply Forall_app in Hall. destruct Hall as [_ Hall].
  inversion Hall as [|i l (Hb & Hcap & Hf) _]; subst.
  destruct (invocation_step fn start length Hlen last Hb Hcap Hf)
    as (Hprim & _).
  now rewrite <- Hst, Hprim.
Qed.

Lemma failure_comes_from_primitive_witness :
  exists earlier last,
    invocations [mk_iovec 1000 6; mk_iovec 2000 2]
      (vmo_closure (sample_fn 5) 0 10) (mk_state 0 0)
    = earlier ++ [last]
    /\ fst (fst (zxio_vmo_do_vector (sample_fn 5) 0 10
                   [mk_iovec 1000 6; mk_iovec 2000 2] (mk_state 0 0)))
       = fst (sample_fn 5 (inv_buffer last)
                (wrap (0 + st_offset (inv_before last)))
                (Z.min (inv_capacity last)
                   (10 - st_offset (inv_before last)))
                (st_world (inv_before last))).
Proof.
  apply (failure_comes_from_primitive (sample_fn 5) 0 10
           [mk_iovec 1000 6; mk_iovec 2000 2] (mk_state 0 0)).
  - unfold is_size_t, size_modulus. lia.
  - repeat constructor; unfold iovec_ok, is_size_t, size_modulus;
      cbn [capacity]; lia.
  - cbn [st_offset]. lia.
  - vm_compute. discriminate.
Defined.

Section Reads.
Context {World : Type}.
Variable fn : primitive World.
Variables start length : Z.
Hypothesis length_is_size_t : is_size_t length.

Local Abbreviation closure := (vmo_closure fn start length).

(** The loop over the lambda when the primitive accepts every transfer:
    everything asked for is moved, up to the end of the resource. *)
Lemma loop_all_ok :
  (forall buf off cap w, fst (fn buf off cap w) = ZX_OK) ->
  forall vector total s,
    in_bounds length s -> Forall iovec_ok vector ->
    fst (do_vector_loop vector total closure s)
    = (ZX_OK,
       total + Z.min (total_requested vector) (length - st_offset s))
    /\ st_offset (snd (do_vector_loop vector total closure s))
       = st_offset s
         + Z.min (total_requested vector) (length - st_offset s).
Proof.
  intros Hfn. induction vector as [|e vector IH]; intros total s Hs Hvec.
  - unfold in_bounds in Hs. cbn. split; [f_equal|]; lia.
  - inversion Hvec as [|e' v' He Hrest]; subst.
    pose proof (total_requested_nonneg vector Hrest) as Hnonneg.
    unfold total_requested in *. cbn [map fold_right do_vector_loop].
    fold (total_requested vector) in *.
    destruct (Z.eqb_spec (capacity e) 0) as [Hz|Hz].
    + rewrite Hz, Z.add_0_l. now apply IH.
    + unfold iovec_ok, is_size_t in He.
      rewrite (closure_step fn start length length_is_size_t)
        by (auto; lia).
      cbv zeta. rewrite Hfn. cbn [Z.eqb ZX_OK negb bytes_moved].
      unfold in_bounds in Hs.
      destruct (Z.ltb_spec (Z.min (capacity e) (length - st_offset s))
                  (capacity e)) as [Hshort|Hfull].
      * cbn [fst snd st_offset]. split; [f_equal|]; lia.
      * assert (Hmin : Z.min (capacity e) (length - st_offset s)
                       = capacity e) by lia.
        rewrite Hmin.
        match goal with
        | |- context [do_vector_loop vector ?t closure ?s1] =>
            destruct (IH t s1) as [H1 H2];
            [unfold in_bounds; cbn [st_offset]; lia | exact Hrest |]
        end.
        rewrite H1, H2. cbn [st_offset]. split; [f_equal|]; lia.
Qed.

(** A shift of the starting total shifts the final total, and nothing
    else. *)
Lemma loop_total_shift {S : Type} (f : transfer S)
    (vector : list zx_iovec_t) :
  forall total s,
    do_vector_loop vector total f s
    = ((fst (fst (do_vector_loop vector 0 f s)),
        total + snd (fst (do_vector_loop vector 0 f s))),
       snd (do_vector_loop vector 0 f s)).
Proof.
  induction vector as [|e vector IH]; intros total s;
    cbn [do_vector_loop].
  - cbn. now rewrite Z.add_0_r.
  - destruct (capacity e =? 0); [apply IH|].
    destruct (f (buffer e) (capacity e) s) as [[st a] s1].
    destruct (negb (st =? ZX_OK)); [cbn; now rewrite Z.add_0_r|].
    destruct (bytes_moved a <? capacity e); [reflexivity|].
    rewrite (IH (total + bytes_moved a)), (IH (0 + bytes_moved a)).
    cbn [fst snd]. now rewrite Z.add_0_l, Z.add_assoc.
Qed.

(** The loop over two descriptors in a row. *)
Lemma loop_app (v1 v2 : list zx_iovec_t) :
  forall total s,
    in_bounds length s -> Forall iovec_ok v1 ->
    (fst (do_vector_loop v1 total closure s)
     = (ZX_OK, total + total_requested v1) ->
     do_vector_loop (v1 ++ v2) total closure s
     = do_vector_loop v2 (total + total_requested v1) closure
         (snd (do_vector_loop v1 total closure s)))
    /\ (fst (do_vector_loop v1 total closure s)
        <> (ZX_OK, total + total_requested v1) ->
        do_vector_loop (v1 ++ v2) total closure s
        = do_vector_loop v1 total closure s).
Proof.
  induction v1 as [|e v1 IH]; intros total s Hs Hvec.
  - cbn. rewrite Z.add_0_r. split; [reflexivity | congruence].
  - inversion Hvec as [|e' v' He Hrest]; subst.
    pose proof (total_requested_nonneg v1 Hrest) as Hnonneg.
    unfold total_requested in *.
    cbn [app map fold_right do_vector_loop].
    fold (total_requested v1) in *.
    destruct (Z.eqb_spec (capacity e) 0) as [Hz|Hz].
    + rewrite Hz, Z.add_0_l. now apply IH.
    + unfold iovec_ok, is_size_t in He.
      rewrite (closure_step fn start length length_is_size_t)
        by (auto; lia).
      cbv zeta. unfold in_bounds in Hs.
      match goal with |- context [if ?b then _ else _] =>
        destruct b eqn:Hok end; cbn [negb Z.eqb ZX_OK bytes_moved].
      * destruct (Z.ltb_spec (Z.min (capacity e) (length - st_offset s))
                    (capacity e)) as [Hshort|Hfull].
        -- cbn [fst snd]. split; [|reflexivity].
           intros Heq. inversion Heq. lia.
        -- assert (Hmin : Z.min (capacity e) (length - st_offset s)
                          = capacity e) by lia.
           rewrite Hmin, Z.add_assoc. apply IH; [|exact Hrest].
           unfold in_bounds. cbn [st_offset]. lia.
      * apply Z.eqb_neq in Hok. rewrite (proj2 (Z.eqb_neq _ _) Hok).
        cbn [negb fst snd]. split; [|reflexivity].
        intros Heq. inversion Heq. congruence.
Qed.

End Reads.

(** X5: when the primitive accepts every transfer, a call of
    [zxio_vmo_do_vector] that starts within the resource answers [ZX_OK]
    and moves exactly the smaller of the bytes the descriptor asks for
    and the bytes left before the end of the resource; the seek offset
    advances by that number. *)
Theorem read_moves_min_of_request_and_rest {World : Type}
    (fn : primitive World) (start length : Z) (vector : list zx_iovec_t)
    (s : file_state World) :
  (forall buf off cap w, fst (fn buf off cap w) = ZX_OK) ->
  is_size_t length -> Forall iovec_ok vector ->
  0 <= st_offset s <= length ->
  fst (zxio_vmo_do_vector fn start length vector s)
  = (ZX_OK,
     Some (Z.min (total_requested vector) (length - st_offset s)))
  /\ st_offset (snd (zxio_vmo_do_vector fn start length vector s))
     = st_offset s + Z.min (total_requested vector) (length - st_offset s).
Proof.
  intros Hfn Hlen Hvec Hs. rewrite vmo_run by assumption.
  unfold zxio_do_vector.
  destruct (loop_all_ok fn start length Hlen Hfn vector 0 s Hs Hvec)
    as [H1 H2].
  cbn [fst snd]. rewrite H1, H2. cbn [fst snd]. now rewrite Z.add_0_l.
Qed.

Lemma read_moves_min_of_request_and_rest_witness :
  fst (zxio_vmo_do_vector ok_fn 0 12288
         [mk_iovec 1000 4000; mk_iovec 3000 4000] (mk_state 8202 0))
  = (ZX_OK, Some (Z.min (4000 + (4000 + 0)) (12288 - 8202))).
Proof.
  apply (read_moves_min_of_request_and_rest ok_fn 0 12288
           [mk_iovec 1000 4000; mk_iovec 3000 4000] (mk_state 8202 0)).
  - intros buf off cap w. reflexivity.
  - unfold is_size_t, size_modulus. lia.
  - repeat constructor; unfold iovec_ok, is_size_t, size_modulus;
      cbn [capacity]; lia.
  - cbn [st_offset]. lia.
Defined.

(** X6: two calls in a row against one call with the two descriptors
    joined, from a seek offset within the resource.  When the first call
    answers [ZX_OK] having moved all its descriptor asks for, the joined
    call gives the status, the state and the seek offset of the second
    call, and the sum of the two totals.  Otherwise the joined call is
    the first call: the entries of the second descriptor are not looked
    at. *)
Theorem joined_descriptor_is_two_calls {World : Type} (fn : primitive World)
    (start length : Z) (v1 v2 : list zx_iovec_t) (s : file_state World) :
  is_size_t length -> Forall iovec_ok v1 ->
  0 <= st_offset s <= length ->
  let first := zxio_vmo_do_vector fn start length v1 s in
  let second := zxio_vmo_do_vector fn start length v2 (snd first) in
  (fst first = (ZX_OK, Some (total_requested v1)) ->
   zxio_vmo_do_vector fn start length (v1 ++ v2) s
   = ((fst (fst second),
       option_map (Z.add (total_requested v1)) (snd (fst second))),
      snd second))
  /\ (fst first <> (ZX_OK, Some (total_requested v1)) ->
      zxio_vmo_do_vector fn start length (v1 ++ v2) s = first).
Proof.
  intros Hlen Hvec Hs. cbv zeta.
  assert (Hs1 : in_bounds length
                  (snd (zxio_do_vector v1 (vmo_closure fn start length) s)))
    by now apply run_invocations.
  rewrite !(vmo_run fn start length _ s) by assumption. cbn [fst snd].
  rewrite vmo_run by assumption. cbn [fst snd option_map].
  unfold zxio_do_vector in *.
  destruct (loop_app fn start length Hlen v1 v2 0 s Hs Hvec)
    as [Hfull Hstop].
  rewrite Z.add_0_l in Hfull, Hstop.
  split.
  - intros Heq.
    assert (Heq' : fst (do_vector_loop v1 0 (vmo_closure fn start length) s)
                   = (ZX_OK, total_requested v1)).
    { destruct (do_vector_loop v1 0 (vmo_closure fn start length) s)
        as [[st t] s1]. cbn [fst snd] in *. congruence. }
    rewrite (Hfull Heq'), loop_total_shift. reflexivity.
  - intros Hne.
    assert (Hne' : fst (do_vector_loop v1 0 (vmo_closure fn start length) s)
                   <> (ZX_OK, total_requested v1)).
    { destruct (do_vector_loop v1 0 (vmo_closure fn start length) s)
        as [[st t] s1]. cbn [fst snd] in *. congruence. }
    now rewrite (Hstop Hne').
Qed.

Lemma joined_descriptor_is_two_calls_witness :
  zxio_vmo_do_vector ok_fn 0 10
    ([mk_iovec 1000 4] ++ [mk_iovec 2000 8]) (mk_state 3 0)
  = ((ZX_OK, Some 7), mk_state 10 7).
Proof.
  assert (Hlen : is_size_t 10) by (unfold is_size_t, size_modulus; lia).
  assert (Hvec : Forall iovec_ok [mk_iovec 1000 4]).
  { repeat constructor; unfold iovec_ok, is_size_t, size_modulus;
      cbn [capacity]; lia. }
  assert (Hs : 0 <= 3 <= 10) by lia.
  destruct (joined_descriptor_is_two_calls ok_fn 0 10
              [mk_iovec 1000 4] [mk_iovec 2000 8] (mk_state 3 0)
              Hlen Hvec Hs) as [Hfull _].
  exact (Hfull eq_refl).
Defined.

End VmoRangeFacts.

(** ** Cache configuration tables *)

Module CacheConfigFacts.
Import CacheConfig.

Lemma length_resize (n : nat) (v : list Z) : length (resize n v) = n.
Proof.
  unfold resize. rewrite length_app, length_firstn, repeat_length. lia.
Qed.

Lemma nth_error_resize_nil (n i : nat) :
  (i < n)%nat -> nth_error (resize n []) i = Some 0.
Proof.
  intros Hi. unfold resize. rewrite firstn_nil. cbn [app length].
  rewrite Nat.sub_0_r. now apply nth_error_repeat.
Qed.

(** An assignment within range replaces one item; out of range it has
    no result. *)
Lemma assign_in_range (i : nat) (x : Z) :
  forall v,
    (i < length v)%nat ->
    exists v',
      assign i x v = Some v'
      /\ length v' = length v
      /\ forall j, nth_error v' j
                   = if (j =? i)%nat then Some x else nth_error v j.
Proof.
  induction i as [|i IH]; intros [|y v] Hi; cbn [length] in Hi; try lia.
  - exists (x :: v). repeat split. now intros [|j].
  - destruct (IH v) as (v' & Heq & Hlen & Hnth); [lia|].
    exists (y :: v'). cbn [assign]. rewrite Heq. cbn [option_map length].
    repeat split; [now rewrite Hlen|].
    intros [|j]; [reflexivity|]. cbn [nth_error Nat.eqb]. apply Hnth.
Qed.

Lemma assign_out_of_range (i : nat) (x : Z) :
  forall v, (length v <= i)%nat -> assign i x v = None.
Proof.
  induction i as [|i IH]; intros [|y v] Hi; cbn [length] in Hi;
    try reflexivity; try lia.
  cbn [assign]. rewrite IH by lia. reflexivity.
Qed.

Lemma for_each_ext (body body' : nat -> list Z -> option (list Z))
    (indices : list nat) :
  (forall i v, body i v = body' i v) ->
  forall v, for_each indices body v = for_each indices body' v.
Proof.
  intros Hext. induction indices as [|i rest IH]; intros v; [reflexivity|].
  cbn [for_each]. rewrite Hext. destruct (body' i v); [apply IH|reflexivity].
Qed.

(** A loop that assigns [f i] at each index [i] of a range within the
    vector. *)
Lemma for_each_assign (f : nat -> Z) (k : nat) :
  forall a v,
    (a + k <= length v)%nat ->
    exists v',
      for_each (seq a k) (fun i => assign i (f i)) v = Some v'
      /\ length v' = length v
      /\ forall j, nth_error v' j
                   = if ((a <=? j) && (j <? a + k))%nat then Some (f j)
                     else nth_error v j.
Proof.
  induction k as [|k IH]; intros a v Hk.
  - exists v. repeat split. intros j.
    destruct (Nat.leb_spec a j), (Nat.ltb_spec j (a + 0)); cbn; try reflexivity; lia.
  - cbn [seq for_each].
    destruct (assign_in_range a (f a) v) as (v1 & Heq & Hlen & Hnth); [lia|].
    rewrite Heq.
    destruct (IH (S a) v1) as (v' & Hrun & Hlen' & Hnth'); [lia|].
    exists v'. split; [exact Hrun|]. split; [congruence|].
    intros j. rewrite Hnth', Hnth.
    destruct (Nat.leb_spec (S a) j), (Nat.ltb_spec j (S a + k)),
      (Nat.leb_spec a j), (Nat.ltb_spec j (a + S k)),
      (Nat.eqb_spec j a); cbn [andb]; try reflexivity; try lia.
    now subst.
Qed.

Lemma gen12_body (cached uncached : Z) (i : nat) (v : list Z) :
  match i with
  | 2%nat | 48%nat | 60%nat => assign i cached
  | _ => assign i uncached
  end v
  = assign i (if ((i =? 2) || (i =? 48) || (i =? 60))%nat
              then cached else uncached) v.
Proof.
  do 61 (destruct i as [|i]; [reflexivity|]). reflexivity.
Qed.

Lemma lncf_gen12_body (cached uncached : Z) (i : nat) (v : list Z) :
  match i with
  | 2%nat | 48%nat => assign i cached
  | _ => assign i uncached
  end v
  = assign i (if ((i =? 2) || (i =? 48))%nat then cached else uncached) v.
Proof.
  do 49 (destruct i as [|i]; [reflexivity|]). reflexivity.
Qed.

(** The Gen12 global table, entry by entry. *)
Lemma gen12_global_run (entries : nat)
    (format : Cacheability -> Cache -> LruManagement -> Z)
    (mocs : list Z) :
  exists global,
    GetMemoryObjectControlStateGen12 entries format mocs = Some global
    /\ length global = entries
    /\ forall i,
         (i < entries)%nat ->
         nth_error global i
         = Some (if ((i =? 2) || (i =? 48) || (i =? 60))%nat
                 then format WRITEBACK LLC LRU_3
                 else format UNCACHED LLC LRU_0).
Proof.
  unfold GetMemoryObjectControlStateGen12. cbv zeta.
  rewrite (for_each_ext _ _ _
             (gen12_body (format WRITEBACK LLC LRU_3)
                (format UNCACHED LLC LRU_0))).
  destruct (for_each_assign
              (fun i => if ((i =? 2) || (i =? 48) || (i =? 60))%nat
                        then format WRITEBACK LLC LRU_3
                        else format UNCACHED LLC LRU_0)
              entries 0 (resize entries mocs))
    as (global & Hg & Hglen & Hgnth); [rewrite length_resize; lia|].
  exists global. rewrite length_resize in Hglen.
  split; [exact Hg|]. split; [exact Hglen|].
  intros i Hi. rewrite Hgnth. cbn [Nat.leb andb Nat.add].
  destruct (Nat.ltb_spec i entries); [reflexivity | lia].
Qed.

(** The Gen12 LNCF table, entry by entry. *)
Lemma gen12_lncf_run (entries : nat)
    (lncf_format : LncfCacheability -> Z) (lncf_mocs : list Z) :
  exists lncf,
    GetLncfMemoryObjectControlStateGen12 entries lncf_format lncf_mocs
    = Some lncf
    /\ length lncf = entries
    /\ forall i,
         (i < entries)%nat ->
         nth_error lncf i
         = Some (if ((i =? 2) || (i =? 48))%nat
                 then lncf_format LNCF_WRITEBACK
                 else lncf_format LNCF_UNCACHED).
Proof.
  unfold GetLncfMemoryObjectControlStateGen12.
  rewrite (for_each_ext _ _ _
             (lncf_gen12_body (lncf_format LNCF_WRITEBACK)
                (lncf_format LNCF_UNCACHED))).
  destruct (for_each_assign
              (fun i => if ((i =? 2) || (i =? 48))%nat
                        then lncf_format LNCF_WRITEBACK
                        else lncf_format LNCF_UNCACHED)
              entries 0 (resize entries lncf_mocs))
    as (lncf & Hl & Hllen & Hlnth); [rewrite length_resize; lia|].
  exists lncf. rewrite length_resize in Hllen.
  split; [exact Hl|]. split; [exact Hllen|].
  intros i Hi. rewrite Hlnth. cbn [Nat.leb andb Nat.add].
  destruct (Nat.ltb_spec i entries); [reflexivity | lia].
Qed.

(** X7: the Gen12 tables.  Whatever the vectors held before, both
    functions succeed and leave exactly [kMemoryObjectControlStateEntries]
    entries.  In the global table the entries 2, 48 and 60 are the cached
    setting (write-back, LLC, LRU 3) and all others the uncached one; in
    the LNCF table only the entries 2 and 48 are write-back, entry 60
    included among the uncached ones. *)
Theorem gen12_tables (entries : nat)
    (format : Cacheability -> Cache -> LruManagement -> Z)
    (lncf_format : LncfCacheability -> Z) (mocs lncf_mocs : list Z) :
  exists global lncf,
    GetMemoryObjectControlStateGen12 entries format mocs = Some global
    /\ GetLncfMemoryObjectControlStateGen12 entries lncf_format lncf_mocs
       = Some lncf
    /\ length global = entries
    /\ length lncf = entries
    /\ forall i,
         (i < entries)%nat ->
         nth_error global i
         = Some (if ((i =? 2) || (i =? 48) || (i =? 60))%nat
                 then format WRITEBACK LLC LRU_3
                 else format UNCACHED LLC LRU_0)
         /\ nth_error lncf i
            = Some (if ((i =? 2) || (i =? 48))%nat
                    then lncf_format LNCF_WRITEBACK
                    else lncf_format LNCF_UNCACHED).
Proof.
  destruct (gen12_global_run entries format mocs)
    as (global & Hg & Hglen & Hgnth).
  destruct (gen12_lncf_run entries lncf_format lncf_mocs)
    as (lncf & Hl & Hllen & Hlnth).
  exists global, lncf.
  split; [exact Hg|]. split; [exact Hl|].
  split; [exact Hglen|]. split; [exact Hllen|].
  intros i Hi. split; [now apply Hgnth | now apply Hlnth].
Qed.

(** Three assignments at the front, then a loop that fills the rest. *)
Lemma first_three_then_fill (n : nat) (a b c d : Z) (v : list Z) :
  (3 <= n)%nat ->
  match assign 0 a (resize n v) with
  | None => None
  | Some m =>
  match assign 1 b m with
  | None => None
  | Some m =>
  match assign 2 c m with
  | None => None
  | Some m => for_each (seq 3 (n - 3)) (fun index => assign index d) m
  end end end
  = Some (a :: b :: c :: repeat d (n - 3)).
Proof.
  intros Hn.
  destruct (assign_in_range 0 a (resize n v)) as (m0 & -> & Hl0 & Hn0);
    [rewrite length_resize; lia|].
  rewrite length_resize in Hl0.
  destruct (assign_in_range 1 b m0) as (m1 & -> & Hl1 & Hn1); [lia|].
  destruct (assign_in_range 2 c m1) as (m2 & -> & Hl2 & Hn2); [lia|].
  destruct (for_each_assign (fun _ => d) (n - 3) 3 m2)
    as (m3 & -> & Hl3 & Hn3); [lia|].
  f_equal. apply nth_error_ext. intros j.
  rewrite Hn3, Hn2, Hn1, Hn0.
  destruct j as [|[|[|j]]]; try reflexivity.
  change (nth_error (a :: b :: c :: repeat d (n - 3)) (S (S (S j))))
    with (nth_error (repeat d (n - 3)) j).
  cbn [Nat.leb Nat.eqb].
  destruct (Nat.ltb_spec (S (S (S j))) (3 + (n - 3))) as [Hlt|Hge];
    cbn [andb].
  - symmetry. apply nth_error_repeat. lia.
  - transitivity (@None Z).
    + apply nth_error_None. rewrite length_resize. lia.
    + symmetry. apply nth_error_None. rewrite repeat_length. lia.
Qed.

Lemma first_three_out_of_range (n : nat) (a b c d : Z) (v : list Z) :
  (n < 3)%nat ->
  match assign 0 a (resize n v) with
  | None => None
  | Some m =>
  match assign 1 b m with
  | None => None
  | Some m =>
  match assign 2 c m with
  | None => None
  | Some m => for_each (seq 3 (n - 3)) (fun index => assign index d) m
  end end end
  = None.
Proof.
  intros Hn.
  destruct (assign 0 a (resize n v)) as [m0|] eqn:H0; [|reflexivity].
  assert (Hl0 : length m0 = n).
  { destruct (Nat.eq_dec n 0) as [->|Hnz].
    - rewrite assign_out_of_range in H0 by (rewrite length_resize; lia).
      discriminate.
    - destruct (assign_in_range 0 a (resize n v)) as (m & Hm & Hl & _);
        [rewrite length_resize; lia|].
      rewrite length_resize in Hl. congruence. }
  destruct (assign 1 b m0) as [m1|] eqn:H1; [|reflexivity].
  assert (Hl1 : length m1 = n).
  { destruct (Nat.le_gt_cases n 1) as [Hle|Hgt].
    - rewrite assign_out_of_range in H1 by lia. discriminate.
    - destruct (assign_in_range 1 b m0) as (m & Hm & Hl & _); [lia|].
      congruence. }
  rewrite assign_out_of_range by lia. reflexivity.
Qed.

(** X8: the tables of the older generations.  With at least three
    entries both functions succeed, whatever the vectors held before:
    entry 0 is the uncached setting, entry 1 the page-table setting
    (write-back in the LNCF table), entry 2 write-back, and every further
    entry the uncached setting again.  With fewer than three entries one
    of the three leading assignments falls outside the vector. *)
Theorem gen9_tables (entries : nat)
    (format : Cacheability -> Cache -> LruManagement -> Z)
    (lncf_format : LncfCacheability -> Z) (mocs lncf_mocs : list Z) :
  ((3 <= entries)%nat ->
   GetMemoryObjectControlState entries format mocs
   = Some (format UNCACHED LLC_ELLC LRU_0
           :: format PAGETABLE LLC_ELLC LRU_3
           :: format WRITEBACK LLC_ELLC LRU_3
           :: repeat (format UNCACHED LLC_ELLC LRU_0) (entries - 3))
   /\ GetLncfMemoryObjectControlState entries lncf_format lncf_mocs
      = Some (lncf_format LNCF_UNCACHED
              :: lncf_format LNCF_WRITEBACK
              :: lncf_format LNCF_WRITEBACK
              :: repeat (lncf_format LNCF_UNCACHED) (entries - 3)))
  /\ ((entries < 3)%nat ->
      GetMemoryObjectControlState entries format mocs = None
      /\ GetLncfMemoryObjectControlState entries lncf_format lncf_mocs
         = None).
Proof.
  unfold GetMemoryObjectControlState, GetLncfMemoryObjectControlState.
  cbv zeta. split; intros Hn; split;
    first [now apply first_three_then_fill
          | now apply first_three_out_of_range].
Qed.

(** *** Packing *)

Lemma pair_ind (P : list Z -> Prop) :
  P [] -> (forall x, P [x]) ->
  (forall x y l, P l -> P (x :: y :: l)) ->
  forall l, P l.
Proof.
  intros H0 H1 H2. fix IH 1. intros [|x [|y l]].
  - exact H0.
  - apply H1.
  - apply H2, IH.
Qed.

Lemma lor_halves (hi lo : Z) :
  0 <= lo < 65536 ->
  Z.lor (Z.shiftl hi 16) lo = hi * 65536 + lo.
Proof.
  intros Hlo. rewrite Z.shiftl_mul_pow2 by lia. change (2 ^ 16) with 65536.
  assert (Hdisjoint : Z.land (hi * 65536) lo = 0).
  { apply Z.bits_inj'. intros n Hn. rewrite Z.land_spec, Z.bits_0.
    destruct (Z.lt_ge_cases n 16) as [Hlt|Hge].
    - change 65536 with (2 ^ 16). rewrite Z.mul_pow2_bits_low by lia.
      reflexivity.
    - rewrite <- (Z.mod_small lo (2 ^ 16)) by (change (2 ^ 16) with 65536; lia).
      rewrite Z.mod_pow2_bits_high by lia. apply andb_false_r. }
  pose proof (Z.add_lor_land (hi * 65536) lo) as H.
  rewrite Hdisjoint in H. lia.
Qed.

Lemma halves_packed (hi lo : Z) :
  0 <= lo < 65536 -> 0 <= hi < 65536 ->
  0 <= wrap32 (Z.lor (Z.shiftl hi 16) lo) < 2 ^ 32
  /\ halves (wrap32 (Z.lor (Z.shiftl hi 16) lo)) = [lo; hi].
Proof.
  intros Hlo Hhi. rewrite lor_halves by assumption.
  unfold wrap32. rewrite Z.mod_small by lia.
  split; [lia|]. unfold halves.
  change 65535 with (Z.ones 16). rewrite Z.land_ones by lia.
  rewrite Z.shiftr_div_pow2 by lia. change (2 ^ 16) with 65536.
  f_equal; [|f_equal].
  - rewrite Z.add_comm, Z.mod_add by lia. apply Z.mod_small. lia.
  - rewrite Z.add_comm, Z.div_add by lia. rewrite Z.div_small by lia. lia.
Qed.

Lemma pack_lncf_odd (l : list Z) :
  Nat.even (length l) = false -> pack_lncf l = None.
Proof.
  induction l as [| x | lo hi l IH] using pair_ind;
    cbn [length Nat.even pack_lncf]; intros Hpar;
    [discriminate | reflexivity | now rewrite (IH Hpar)].
Qed.

Lemma pack_lncf_even (l : list Z) :
  Forall (fun x => 0 <= x < 65536) l ->
  Nat.even (length l) = true ->
  exists p,
    pack_lncf l = Some p
    /\ length l = (2 * length p)%nat
    /\ flat_map halves p = l
    /\ Forall (fun w => 0 <= w < 2 ^ 32) p.
Proof.
  induction l as [| x | lo hi l IH] using pair_ind; intros Hall Hpar.
  - exists []. now repeat split.
  - discriminate.
  - inversion Hall as [|? ? Hlo Hall']; subst.
    inversion Hall' as [|? ? Hhi Hrest]; subst.
    destruct (halves_packed hi lo Hlo Hhi) as [Hrange Hhalves].
    cbn [length Nat.even] in Hpar.
    destruct (IH Hrest Hpar) as (p & Hp & Hlen & Hflat & Hall32).
    cbn [pack_lncf]. rewrite Hp.
    eexists. split; [reflexivity|]. cbn [option_map length flat_map].
    split; [lia|]. split; [|now constructor].
    rewrite Hhalves, Hflat. reflexivity.
Qed.

(** X9: packing 16-bit entries two by two.  For an even number of
    entries, each below [2^16], the loop gives half as many 32-bit words,
    and splitting each word into its low and its high half gives the
    entries back, in order: entry [2k] is the low half of word [k] and
    entry [2k + 1] its high half.  For an odd number of entries the last
    round reads past the end of the vector. *)
Theorem pack_lncf_halves (lncf_mocs : list Z) :
  Forall (fun x => 0 <= x < 65536) lncf_mocs ->
  (Nat.even (length lncf_mocs) = true ->
   exists packed,
     pack_lncf lncf_mocs = Some packed
     /\ length lncf_mocs = (2 * length packed)%nat
     /\ flat_map halves packed = lncf_mocs
     /\ Forall (fun w => 0 <= w < 2 ^ 32) packed)
  /\ (Nat.even (length lncf_mocs) = false -> pack_lncf lncf_mocs = None).
Proof.
  intros Hall. split.
  - now apply pack_lncf_even.
  - apply pack_lncf_odd.
Qed.

Lemma pack_lncf_halves_witness :
  exists packed,
    pack_lncf [16; 48; 48; 16] = Some packed
    /\ flat_map halves packed = [16; 48; 48; 16].
Proof.
  assert (Hall : Forall (fun x => 0 <= x < 65536) [16; 48; 48; 16])
    by (repeat constructor; lia).
  destruct (pack_lncf_halves [16; 48; 48; 16] Hall) as [Heven _].
  destruct (Heven eq_refl) as (p & Hp & _ & Hflat & _).
  exists p. now split.
Defined.

Lemma length_write_all (base : Z) (v : list Z) :
  length (write_all base v) = length v.
Proof.
  unfold write_all. rewrite length_map, length_combine, length_seq. lia.
Qed.

(** X10: [InitCacheConfigGen12], when the LNCF settings fit in 16 bits.
    With an even number of table entries it answers [true], and after
    the writes already made it writes first every entry of the global
    table, then every packed word of the LNCF table, each packed word
    holding two consecutive LNCF entries (low half, then high half):
    [entries + entries / 2] register writes in all.  With an odd number
    of entries the packing loop reads past the end of the LNCF table. *)
Theorem init_gen12_register_writes (entries : nat)
    (format : Cacheability -> Cache -> LruManagement -> Z)
    (lncf_format : LncfCacheability -> Z)
    (kGlobalOffsetGen12 kOffset : Z) (register_io : list reg_write) :
  (forall c, 0 <= lncf_format c < 65536) ->
  (Nat.even entries = true ->
   exists global lncf packed,
     GetMemoryObjectControlStateGen12 entries format [] = Some global
     /\ GetLncfMemoryObjectControlStateGen12 entries lncf_format []
        = Some lncf
     /\ pack_lncf lncf = Some packed
     /\ flat_map halves packed = lncf
     /\ InitCacheConfigGen12 entries format lncf_format
          kGlobalOffsetGen12 kOffset register_io
        = Some (true,
                (register_io ++ write_all kGlobalOffsetGen12 global)
                ++ write_all kOffset packed)
     /\ (length (write_all kGlobalOffsetGen12 global)
         + length (write_all kOffset packed)
         = entries + entries / 2)%nat)
  /\ (Nat.even entries = false ->
      InitCacheConfigGen12 entries format lncf_format
        kGlobalOffsetGen12 kOffset register_io
      = None).
Proof.
  intros Hfmt.
  destruct (gen12_global_run entries format [])
    as (global & Hg & Hglen & _).
  destruct (gen12_lncf_run entries lncf_format [])
    as (lncf & Hl & Hllen & Hnth).
  assert (Hall : Forall (fun x => 0 <= x < 65536) lncf).
  { apply Forall_forall. intros x Hx.
    destruct (In_nth_error _ _ Hx) as (i & Hi).
    assert (Hlt : (i < entries)%nat).
    { rewrite <- Hllen. apply nth_error_Some. congruence. }
    rewrite (Hnth i Hlt) in Hi.
    inversion Hi; subst. destruct ((i =? 2) || (i =? 48))%nat; apply Hfmt. }
  pose proof (pack_lncf_even lncf Hall) as Heven.
  pose proof (pack_lncf_odd lncf) as Hodd.
  rewrite Hllen in Heven, Hodd.
  unfold InitCacheConfigGen12. rewrite Hg, Hl.
  split; intros Hpar.
  - destruct (Heven Hpar) as (packed & Hp & Hlen & Hflat & _).
    exists global, lncf, packed. rewrite Hp.
    repeat (split; [assumption || reflexivity|]).
    rewrite !length_write_all, Hglen. f_equal.
    rewrite Hlen, Nat.mul_comm, Nat.div_mul by lia. reflexivity.
  - now rewrite (Hodd Hpar).
Qed.

Lemma init_gen12_register_writes_witness :
  exists writes,
    InitCacheConfigGen12 62 sample_format sample_lncf_format 16384 45088 []
    = Some (true, writes)
    /\ length writes = 93%nat.
Proof.
  assert (Hfmt : forall c, 0 <= sample_lncf_format c < 65536)
    by (intros []; cbn; lia).
  destruct (init_gen12_register_writes 62 sample_format sample_lncf_format
              16384 45088 [] Hfmt) as [Heven _].
  destruct (Heven eq_refl) as (global & lncf & packed & _ & _ & _ & _ & Hrun & Hlen).
  eexists. split; [exact Hrun|].
  rewrite length_app. cbn [app]. exact Hlen.
Defined.

End CacheConfigFacts.

(** ** Start-up thread of the AV400 board driver *)

Module Av400Facts.
Import Av400.

(** The end of [Thread]: reply, and answer [ZX_OK]. *)
Local Abbreviation finish :=
  (fun (status : zx_status_t) b => (ZX_OK, emit (Reply status) b)).

Lemma Thread_chain {World : Type}
    (init : init_fn -> World -> zx_status_t * World) (b : board World) :
  Thread init b = chain init init_order finish ZX_OK (emit LogInfo b).
Proof. reflexivity. Qed.

(** What a chain adds to the events: error lines, then exactly one
    reply, which carries the status handed back. *)
Lemma chain_events {World : Type}
    (init : init_fn -> World -> zx_status_t * World) (fs : list init_fn) :
  forall b,
    exists new,
      events (snd (chain init fs finish ZX_OK b)) = events b ++ new
      /\ filter is_reply new = [Reply (fst (chain init fs finish ZX_OK b))]
      /\ last new LogInfo = Reply (fst (chain init fs finish ZX_OK b)).
Proof.
  induction fs as [|f fs IH]; intros b; cbn [chain].
  - exists [Reply ZX_OK]. now repeat split.
  - unfold try_init. destruct (init f (world b)) as [st w].
    destruct (Z.eqb_spec st ZX_OK) as [->|Hne]; cbn [negb].
    + destruct (IH (mk_board w (events b))) as (new & He & Hf & Hl).
      exists new. now repeat split.
    + exists [LogError f st; Reply st]. cbn [snd fst emit events world].
      rewrite <- app_assoc. now repeat split.
Qed.

Lemma logged_init_call {World : Type}
    (init : init_fn -> World -> zx_status_t * World) (f : init_fn)
    (w : World) (ran : list (init_fn * zx_status_t)) :
  logged_init init f (w, ran)
  = (fst (init f w), (snd (init f w), ran ++ [(f, fst (init f w))])).
Proof. unfold logged_init. cbn [fst snd]. now destruct (init f w). Qed.

(** The calls made by a chain over members that note down their calls. *)
Lemma chain_calls {World : Type}
    (init : init_fn -> World -> zx_status_t * World) (fs : list init_fn) :
  forall w ran evs,
    let run := chain (logged_init init) fs finish ZX_OK
                 (mk_board (w, ran) evs) in
    (fst run = ZX_OK
     /\ snd (world (snd run)) = ran ++ map (fun f => (f, ZX_OK)) fs)
    \/ (exists before f after,
          fs = before ++ f :: after
          /\ fst run <> ZX_OK
          /\ snd (world (snd run))
             = ran ++ map (fun g => (g, ZX_OK)) before ++ [(f, fst run)]).
Proof.
  induction fs as [|f fs IH]; intros w ran evs; cbv zeta; cbn [chain].
  - left. cbn. now rewrite app_nil_r.
  - unfold try_init. cbn [world events]. rewrite logged_init_call.
    destruct (init f w) as [st w1]. cbn [fst snd].
    destruct (Z.eqb_spec st ZX_OK) as [->|Hne]; cbn [negb].
    + destruct (IH w1 (ran ++ [(f, ZX_OK)]) evs)
        as [[Hrc Hran] | (before & g & after & -> & Hrc & Hran)].
      * left. split; [exact Hrc|]. rewrite Hran, <- app_assoc. reflexivity.
      * right. exists (f :: before), g, after.
        split; [reflexivity|]. split; [exact Hrc|].
        rewrite Hran, <- app_assoc. reflexivity.
    + right. exists [], f, fs. cbn [fst snd emit world app map].
      now repeat split.
Qed.

(** X11: [Av400::Thread] calls the initialisation members in the order
    of the source, each one only after all those before it answered
    [ZX_OK].  It answers [ZX_OK] only when all twenty-one did; otherwise
    it answers the status of the first member that failed, and calls no
    member after that one. *)
Theorem thread_stops_at_first_failure {World : Type}
    (init : init_fn -> World -> zx_status_t * World)
    (w : World) (evs : list event) :
  let run := Thread (logged_init init) (mk_board (w, []) evs) in
  let called := snd (world (snd run)) in
  (fst run = ZX_OK /\ called = map (fun f => (f, ZX_OK)) init_order)
  \/ (exists before f after,
        init_order = before ++ f :: after
        /\ fst run <> ZX_OK
        /\ called = map (fun g => (g, ZX_OK)) before ++ [(f, fst run)]).
Proof.
  cbv zeta. rewrite Thread_chain.
  apply (chain_calls init init_order w [] (evs ++ [LogInfo])).
Qed.

(** X12: on every path [Av400::Thread] replies to the init transaction
    exactly once, as the last thing it does, and the status of the reply
    is the status it answers. *)
Theorem thread_replies_once {World : Type}
    (init : init_fn -> World -> zx_status_t * World) (b : board World) :
  exists new,
    events (snd (Thread init b)) = events b ++ LogInfo :: new
    /\ filter is_reply new = [Reply (fst (Thread init b))]
    /\ last new LogInfo = Reply (fst (Thread init b)).
Proof.
  rewrite Thread_chain.
  destruct (chain_events init init_order (emit LogInfo b))
    as (new & He & Hf & Hl).
  exists new. split; [|now split].
  rewrite He. cbn [emit events]. now rewrite <- app_assoc.
Qed.

Example thread_run_first_failure :
  Thread (sample_init GpioInit) (mk_board 0 [])
  = (-2, mk_board 0 [LogInfo; LogError GpioInit (-2); Reply (-2)]).
Proof. vm_compute. reflexivity. Qed.

Example thread_run_late_failure :
  Thread (logged_init (sample_init ClkInit)) (mk_board (0, []) [])
  = (-2, mk_board (2, [(GpioInit, 0); (PwmInit, 0); (ClkInit, -2)])
           [LogInfo; LogError ClkInit (-2); Reply (-2)]).
Proof. vm_compute. reflexivity. Qed.

End Av400Facts.

(** ** The mock accessibility focus manager *)

Module MockFocusFacts.
Import MockFocus.

(** X13: setting the focus and reading it back.  When neither operation
    is set to fail, [GetA11yFocus] after [SetA11yFocus(koid, node_id)]
    gives exactly that view and node, whatever the focus was before, and
    the caller's callback has been called once, last, with [true]; after
    [ClearA11yFocus] the focus reads as absent. *)
Theorem set_then_get_focus (koid node_id : Z) (m : MockA11yFocusManager) :
  should_set_a11y_focus_fail_ m = false ->
  should_get_a11y_focus_fail_ m = false ->
  let m' := SetA11yFocus koid node_id m in
  fst (GetA11yFocus m') = Some (mk_focus koid node_id)
  /\ (exists notified,
        callback_calls m'
        = callback_calls m ++ notified ++ [SetA11yFocusCallback true]
        /\ Forall (fun c => exists focus, c = OnA11yFocusUpdated focus)
                  notified)
  /\ fst (GetA11yFocus (ClearA11yFocus m')) = None.
Proof.
  destruct m as [g s u gf sf info cb calls]. cbn. intros -> ->.
  destruct cb; cbn.
  - repeat split.
    exists [OnA11yFocusUpdated (Some (mk_focus koid node_id))].
    rewrite <- app_assoc. split; [reflexivity|]. repeat constructor. eauto.
  - repeat split. exists []. split; [reflexivity|constructor].
Qed.

Lemma set_then_get_focus_witness :
  fst (GetA11yFocus
         (SetA11yFocus 7 3
            (mk_mock false false false false false None true [])))
  = Some (mk_focus 7 3).
Proof.
  apply (set_then_get_focus 7 3
           (mk_mock false false false false false None true []));
    reflexivity.
Defined.

(** X14: a [SetA11yFocus] that is set to fail calls the caller's
    callback once, with [false], and nothing else: the stored focus is
    the one from before, the update callback is not called and
    [GetA11yFocus] is not marked as called; only the mark of
    [SetA11yFocus] itself is set. *)
Theorem failing_set_keeps_focus (koid node_id : Z)
    (m : MockA11yFocusManager) :
  should_set_a11y_focus_fail_ m = true ->
  SetA11yFocus koid node_id m
  = call_back (SetA11yFocusCallback false) (with_set_called true m)
  /\ a11y_focus_info_ (SetA11yFocus koid node_id m) = a11y_focus_info_ m
  /\ IsGetA11yFocusCalled (SetA11yFocus koid node_id m)
     = IsGetA11yFocusCalled m
  /\ IsSetA11yFocusCalled (SetA11yFocus koid node_id m) = true.
Proof.
  destruct m as [g s u gf sf info cb calls]. cbn. intros ->. now repeat split.
Qed.

Lemma failing_set_keeps_focus_witness :
  a11y_focus_info_
    (SetA11yFocus 7 3
       (mk_mock false false false false true (Some (mk_focus 1 2)) true []))
  = Some (mk_focus 1 2).
Proof.
  apply (failing_set_keeps_focus 7 3
           (mk_mock false false false false true (Some (mk_focus 1 2))
              true [])).
  reflexivity.
Defined.

(** X15: the update callback is fed through [GetA11yFocus].  When
    [SetA11yFocus] is not set to fail and an update callback is
    installed, the call marks [GetA11yFocus] as called although the test
    did not call it, and the callback receives the new focus only if
    [GetA11yFocus] is not set to fail: otherwise it receives no focus
    while the new focus is stored all the same.  Without an update
    callback the mark of [GetA11yFocus] is left as it was. *)
Theorem update_callback_goes_through_get (koid node_id : Z)
    (m : MockA11yFocusManager) :
  should_set_a11y_focus_fail_ m = false ->
  let m' := SetA11yFocus koid node_id m in
  a11y_focus_info_ m' = Some (mk_focus koid node_id)
  /\ (on_a11y_focus_updated_callback_ m = true ->
      IsGetA11yFocusCalled m' = true
      /\ callback_calls m'
         = callback_calls m
           ++ [OnA11yFocusUpdated
                 (if should_get_a11y_focus_fail_ m then None
                  else Some (mk_focus koid node_id));
               SetA11yFocusCallback true])
  /\ (on_a11y_focus_updated_callback_ m = false ->
      IsGetA11yFocusCalled m' = IsGetA11yFocusCalled m
      /\ callback_calls m'
         = callback_calls m ++ [SetA11yFocusCallback true]).
Proof.
  destruct m as [g s u gf sf info cb calls]. cbn. intros ->.
  destruct cb, gf; cbn; rewrite <- ?app_assoc;
    repeat split; intros; try reflexivity; discriminate.
Qed.

Lemma update_callback_goes_through_get_witness :
  callback_calls
    (SetA11yFocus 7 3
       (mk_mock false false false true false None true []))
  = [OnA11yFocusUpdated None; SetA11yFocusCallback true].
Proof.
  assert (Hset : should_set_a11y_focus_fail_
                   (mk_mock false false false true false None true [])
                 = false) by reflexivity.
  destruct (update_callback_goes_through_get 7 3
              (mk_mock false false false true false None true []) Hset)
    as (_ & Hcb & _).
  exact (proj2 (Hcb eq_refl)).
Defined.

End MockFocusFacts.

(** ** Transcoder registers *)

Module TranscoderFacts.
Import Transcoder.

Lemma int8_small (z : Z) : 0 <= z < 128 -> int8 z = z.
Proof. intros H. unfold int8. rewrite Z.mod_small by lia. lia. Qed.

Lemma int32_small (z : Z) : 0 <= z < 2 ^ 31 -> int32 z = z.
Proof. intros H. unfold int32. rewrite Z.mod_small by lia. lia. Qed.

Lemma uint8_small (z : Z) : 0 <= z < 256 -> uint8 z = z.
Proof. intros H. unfold uint8. now rewrite Z.mod_small by lia. Qed.

Lemma uint32_small (z : Z) : 0 <= z < 2 ^ 32 -> uint32 z = z.
Proof. intros H. unfold uint32. now rewrite Z.mod_small by lia. Qed.




(** The sample register is a field in the sense of [field_ok]. *)
Lemma bit_field_ok (high low : Z) :
  0 <= low <= high -> field_ok (high - low + 1) (bit_field high low).
Proof.
  intros Hhl. unfold field_ok, bit_field. cbn [get set].
  assert (HW : 0 < 2 ^ (high - low + 1)) by (apply Z.pow_pos_nonneg; lia).
  assert (HL : 0 < 2 ^ low) by (apply Z.pow_pos_nonneg; lia).
  split.
  - intros r. now apply Z.mod_pos_bound.
  - intros v r Hv. rewrite Z.div_add by lia.
    replace (r / 2 ^ low + (v - (r / 2 ^ low) mod 2 ^ (high - low + 1)))
      with (v + (r / 2 ^ low / 2 ^ (high - low + 1))
                * 2 ^ (high - low + 1)).
    + rewrite Z.mod_add by lia. now apply Z.mod_small.
    + pose proof (Z.div_mod (r / 2 ^ low) (2 ^ (high - low + 1))
                    ltac:(lia)). lia.
Qed.





(** X18: the port-sync primary transcoder of Kaby Lake, written and
    read back through a 2-bit field, when [TRANS_C] is at most two
    places after [TRANS_A].  For [TRANS_EDP] and for every transcoder
    from [TRANS_A] to [TRANS_C] the setter succeeds and the getter gives
    the transcoder back; for any other transcoder the setter stops the
    program on its assertion. *)
Theorem port_sync_round_trip {Reg : Type} (TRANS_A TRANS_C TRANS_EDP : Z)
    (select : field Reg) (r : Reg) :
  field_ok 2 select ->
  TRANS_C - TRANS_A <= 2 ->
  (forall transcoder,
     transcoder = TRANS_EDP \/ TRANS_A <= transcoder <= TRANS_C ->
     exists r',
       set_port_sync_primary_kaby_lake TRANS_A TRANS_C TRANS_EDP select
         transcoder r = Some r'
       /\ port_sync_primary_transcoder_kaby_lake TRANS_A TRANS_EDP select r'
          = transcoder)
  /\ (forall transcoder,
        transcoder <> TRANS_EDP ->
        transcoder < TRANS_A \/ TRANS_C < transcoder ->
        set_port_sync_primary_kaby_lake TRANS_A TRANS_C TRANS_EDP select
          transcoder r = None).
Proof.
  intros [Hrange Hrw] Hspan.
  unfold set_port_sync_primary_kaby_lake,
    port_sync_primary_transcoder_kaby_lake. cbv zeta.
  split; intros t Ht.
  - destruct (Z.eqb_spec t TRANS_EDP) as [->|Hne].
    + eexists. split; [reflexivity|]. now rewrite Hrw by lia.
    + destruct Ht as [Ht|Ht]; [contradiction|].
      destruct (Z.geb_spec t TRANS_A) as [_|Hlt]; [|lia].
      destruct (Z.leb_spec t TRANS_C) as [_|Hgt]; [|lia].
      cbn [negb]. eexists. split; [reflexivity|].
      rewrite uint32_small by lia. rewrite Hrw by lia.
      rewrite int8_small by lia.
      destruct (Z.eqb_spec (t - TRANS_A + 1) 0); lia.
  - intros Hout. destruct (Z.eqb_spec t TRANS_EDP) as [|_]; [contradiction|].
    destruct (Z.geb_spec t TRANS_A) as [Hge|_]; [|reflexivity].
    destruct (Z.leb_spec t TRANS_C) as [Hle|_]; [lia|reflexivity].
Qed.

Lemma port_sync_round_trip_witness :
  exists r',
    set_port_sync_primary_kaby_lake 0 2 3 (bit_field 19 18) 1 0 = Some r'
    /\ port_sync_primary_transcoder_kaby_lake 0 3 (bit_field 19 18) r' = 1.
Proof.
  assert (Hok : field_ok 2 (bit_field 19 18)) by (apply bit_field_ok; lia).
  assert (Hspan : 2 - 0 <= 2) by lia.
  destruct (port_sync_round_trip 0 2 3 (bit_field 19 18) 0 Hok Hspan)
    as [Hin _].
  apply Hin. right. lia.
Defined.



(** X20: the two counts that are stored less one.  Through a 3-bit
    field, [display_port_lane_count] is always between 1 and 8, and a
    lane count from 1 to 4 set with [set_display_port_lane_count] reads
    back as itself.  Through a 6-bit field, [payload_size] is always
    between 1 and 64, and a payload size from 1 to 64 set with
    [set_payload_size] reads back as itself. *)
Theorem counts_stored_less_one {Reg : Type}
    (display_port_lane_count_selection payload_size_select : field Reg)
    (r : Reg) :
  field_ok 3 display_port_lane_count_selection ->
  field_ok 6 payload_size_select ->
  1 <= display_port_lane_count display_port_lane_count_selection r <= 8
  /\ (forall lane_count,
        1 <= lane_count <= 4 ->
        display_port_lane_count display_port_lane_count_selection
          (set_display_port_lane_count display_port_lane_count_selection
             lane_count r)
        = lane_count)
  /\ 1 <= payload_size payload_size_select r <= 64
  /\ (forall size,
        1 <= size <= 64 ->
        payload_size payload_size_select
          (set_payload_size payload_size_select size r)
        = size).
Proof.
  intros [Hlrange Hlrw] [Hprange Hprw].
  unfold display_port_lane_count, set_display_port_lane_count,
    payload_size, set_payload_size.
  split; [|split; [|split]].
  - pose proof (Hlrange r). rewrite int8_small, uint8_small by lia. lia.
  - intros n Hn. rewrite uint32_small by lia. rewrite Hlrw by lia.
    rewrite int8_small, uint8_small by lia. lia.
  - pose proof (Hprange r).
    rewrite (int32_small (get payload_size_select r)) by lia.
    rewrite int32_small by lia. lia.
  - intros n Hn. rewrite uint32_small by lia. rewrite Hprw by lia.
    rewrite (int32_small (n - 1)) by lia. rewrite int32_small by lia. lia.
Qed.

Lemma counts_stored_less_one_witness :
  display_port_lane_count (bit_field 3 1)
    (set_display_port_lane_count (bit_field 3 1) 4 0xffffffff) = 4
  /\ payload_size (bit_field 30 25)
       (set_payload_size (bit_field 30 25) 64 0) = 64.
Proof.
  assert (Hlane : field_ok 3 (bit_field 3 1)) by (apply bit_field_ok; lia).
  assert (Hpay : field_ok 6 (bit_field 30 25)) by (apply bit_field_ok; lia).
  split.
  - destruct (counts_stored_less_one (bit_field 3 1) (bit_field 30 25)
                0xffffffff Hlane Hpay) as (_ & Hl & _).
    apply Hl. lia.
  - destruct (counts_stored_less_one (bit_field 3 1) (bit_field 30 25)
                0 Hlane Hpay) as (_ & _ & _ & Hp).
    apply Hp. lia.
Defined.

(** X21: the register addresses of one transcoder, when [TRANS_A] is 0,
    [TRANS_C] is below 15 and [TRANS_EDP] is not among the transcoders
    from [TRANS_A] to [TRANS_C].  For [TRANS_EDP] and for each of those
    transcoders, the registers that [TranscoderRegs] looks up with the
    Kaby Lake functions sit in the same block as the ones it computes
    itself: each is its base address plus [offset_].  For a transcoder
    from [TRANS_A] to [TRANS_C] the Tiger Lake functions give the same
    addresses as the Kaby Lake ones, and the clock selection register is
    at [0x46140 + 4 * transcoder]; for [TRANS_EDP] the Tiger Lake
    functions and [ClockSelect] stop the program on their assertions. *)
Theorem transcoder_register_blocks (TRANS_C TRANS_EDP transcoder : Z) :
  0 <= TRANS_C < 15 ->
  TRANS_EDP < 0 \/ TRANS_C < TRANS_EDP ->
  let regs := new_TranscoderRegs TRANS_EDP transcoder in
  (transcoder = TRANS_EDP \/ 0 <= transcoder <= TRANS_C ->
   DdiControl 0 TRANS_C TRANS_EDP regs = Some (GetReg 0x60400 regs)
   /\ Config 0 TRANS_C TRANS_EDP regs = Some (GetReg 0x70008 regs)
   /\ MainStreamAttributeMisc 0 TRANS_C TRANS_EDP regs
      = Some (GetReg 0x60410 regs)
   /\ DataM 0 TRANS_C TRANS_EDP regs = Some (GetReg 0x60030 regs)
   /\ DataN 0 TRANS_C TRANS_EDP regs = Some (GetReg 0x60034 regs)
   /\ LinkM 0 TRANS_C TRANS_EDP regs = Some (GetReg 0x60040 regs)
   /\ LinkN 0 TRANS_C TRANS_EDP regs = Some (GetReg 0x60044 regs))
  /\ (0 <= transcoder <= TRANS_C ->
      DdiControl_GetForTigerLakeTranscoder 0 TRANS_C transcoder
      = DdiControl 0 TRANS_C TRANS_EDP regs
      /\ Config_GetForTigerLakeTranscoder 0 TRANS_C transcoder
         = Config 0 TRANS_C TRANS_EDP regs
      /\ MainStreamAttributeMisc_GetForTigerLakeTranscoder 0 TRANS_C
           transcoder
         = MainStreamAttributeMisc 0 TRANS_C TRANS_EDP regs
      /\ DataM_GetForTigerLakeTranscoder 0 TRANS_C transcoder
         = DataM 0 TRANS_C TRANS_EDP regs
      /\ DataN_GetForTigerLakeTranscoder 0 TRANS_C transcoder
         = DataN 0 TRANS_C TRANS_EDP regs
      /\ LinkM_GetForTigerLakeTranscoder 0 TRANS_C transcoder
         = LinkM 0 TRANS_C TRANS_EDP regs
      /\ LinkN_GetForTigerLakeTranscoder 0 TRANS_C transcoder
         = LinkN 0 TRANS_C TRANS_EDP regs
      /\ ClockSelect 0 TRANS_C regs = Some (0x46140 + 4 * transcoder))
  /\ (transcoder = TRANS_EDP ->
      ClockSelect 0 TRANS_C regs = None
      /\ DdiControl_GetForTigerLakeTranscoder 0 TRANS_C transcoder = None).
Proof.
  intros HC Hedp. cbv zeta.
  unfold DdiControl, Config, MainStreamAttributeMisc, DataM, DataN, LinkM,
    LinkN, ClockSelect, DdiControl_GetForKabyLakeTranscoder,
    Config_GetForKabyLakeTranscoder,
    MainStreamAttributeMisc_GetForKabyLakeTranscoder,
    DataM_GetForKabyLakeTranscoder, DataN_GetForKabyLakeTranscoder,
    LinkM_GetForKabyLakeTranscoder, LinkN_GetForKabyLakeTranscoder,
    DdiControl_GetForTigerLakeTranscoder, Config_GetForTigerLakeTranscoder,
    MainStreamAttributeMisc_GetForTigerLakeTranscoder,
    DataM_GetForTigerLakeTranscoder, DataN_GetForTigerLakeTranscoder,
    LinkM_GetForTigerLakeTranscoder, LinkN_GetForTigerLakeTranscoder,
    ClockSelect_GetForTranscoder, KabyLakeAddress, TigerLakeAddress,
    GetReg, new_TranscoderRegs.
  cbn [transcoder_ offset_]. cbv zeta.
  destruct (Z.eqb_spec transcoder TRANS_EDP) as [Heq|Hne].
  - split; [intros _; repeat split; reflexivity|].
    split; [intros Hin; lia|]. intros _.
    destruct (Z.geb_spec transcoder 0) as [Hge|_]; [|now split].
    destruct (Z.leb_spec transcoder TRANS_C) as [Hle|_]; [lia|now split].
  - split; [|split; [|intros; contradiction]].
    + intros [Heq|Hin]; [contradiction|].
      destruct (Z.geb_spec transcoder 0) as [_|Hlt]; [|lia].
      destruct (Z.leb_spec transcoder TRANS_C) as [_|Hgt]; [|lia].
      cbn [negb]. rewrite (uint32_small (transcoder * 4096)) by lia.
      repeat split; f_equal; rewrite uint32_small by lia; lia.
    + intros Hin.
      destruct (Z.geb_spec transcoder 0) as [_|Hlt]; [|lia].
      destruct (Z.leb_spec transcoder TRANS_C) as [_|Hgt]; [|lia].
      cbn [negb]. repeat split; f_equal; lia.
Qed.

Lemma transcoder_register_blocks_witness :
  DdiControl 0 2 3 (new_TranscoderRegs 3 1)
  = Some (GetReg 0x60400 (new_TranscoderRegs 3 1)).
Proof.
  assert (HC : 0 <= 2 < 15) by lia.
  assert (Hedp : 3 < 0 \/ 2 < 3) by lia.
  destruct (transcoder_register_blocks 2 3 1 HC Hedp) as [Hblock _].
  apply Hblock. right. lia.
Defined.

End TranscoderFacts.
